(** * NumberGame: a two-player counting game

    A shallow embedding of [NumberGame.py].  Python integers are unbounded,
    so every count, step and turn number is a [Z].  Methods that read the
    keyboard, draw random numbers or print are functions in a small
    state-and-exception monad over the [World] the program runs in; the
    [while] loop of [NumberGame.play] is unrolled by a fuel argument. *)

From Stdlib Require Import ZArith List String Bool Lia DecimalString.
Import ListNotations.
Open Scope Z_scope.

(** ** The world outside the program *)

(** Python exceptions the modelled code can raise. *)
Inductive exn : Type :=
| NotImplementedError   (* Player.move of the base class *)
| ZeroDivisionError     (* x % 0 *)
| ValueError            (* int() on malformed text, randint on an empty range *)
| EOFError.             (* input() at end of input *)

(** What the program writes on standard output, one constructor per
    format string of the source. *)
Inductive Line : Type :=
| MovesLine (who : string) (amount : Z)   (* f'{name} moves {amount}.' *)
| TotalLine (total : Z)                   (* f'Total is now {current}.' *)
| PromptLine (lo hi : Z)                  (* f'Input your move between {lo} and {hi}:' *)
| InvalidLine.                            (* 'Invalid move. Try Again!' *)

Definition str_of_Z (z : Z) : string := NilZero.string_of_int (Z.to_int z).

Definition render (l : Line) : string :=
  match l with
  | MovesLine who amount => who ++ " moves " ++ str_of_Z amount ++ "."
  | TotalLine total => "Total is now " ++ str_of_Z total ++ "."
  | PromptLine lo hi =>
      "Input your move between " ++ str_of_Z lo ++ " and " ++ str_of_Z hi ++ ":"
  | InvalidLine => "Invalid move. Try Again!"
  end%string.

(** The world: the lines still to be typed ([None] is a line that [int()]
    cannot parse), everything printed so far in order, and the random
    source as an infinite supply of raw draws with a cursor. *)
Record World : Type := mkWorld {
  stdin  : list (option Z);
  stdout : list Line;
  draws  : nat -> Z;
  drawn  : nat
}.

Definition emit (out : list Line) (w : World) : World :=
  {| stdin := stdin w; stdout := stdout w ++ out;
     draws := draws w; drawn := drawn w |}.

Definition totals (out : list Line) : list Z :=
  flat_map (fun l => match l with TotalLine t => [t] | _ => [] end) out.

(** ** Results and the monad *)

Inductive outcome (A : Type) : Type :=
| Ok (a : A)
| Raise (e : exn)
| OutOfFuel.
Arguments Ok {A} a.
Arguments Raise {A} e.
Arguments OutOfFuel {A}.

Definition M (A : Type) : Type := World -> outcome (A * World).

Definition ret {A} (a : A) : M A := fun w => Ok (a, w).
Definition raise {A} (e : exn) : M A := fun _ => Raise e.
Definition bind {A B} (m : M A) (k : A -> M B) : M B :=
  fun w => match m w with
           | Ok (a, w') => k a w'
           | Raise e => Raise e
           | OutOfFuel => OutOfFuel
           end.
Definition print (l : Line) : M unit := fun w => Ok (tt, emit [l] w).

Notation "x <- m ;; k" := (bind m (fun x => k))
  (at level 61, m at next level, right associativity).
Notation "m ;;; k" := (bind m (fun _ => k))
  (at level 61, right associativity).

(** Python's [a % b]: the result has the sign of the divisor, as [Z.modulo]
    does; a zero divisor raises. *)
Definition py_mod (a b : Z) : M Z :=
  if b =? 0 then raise ZeroDivisionError else ret (a mod b).

(** [random.randint(a, b)]: a value of the inclusive range, taken from the
    next raw draw; an empty range raises. *)
Definition randint (a b : Z) : M Z := fun w =>
  if b <? a then Raise ValueError
  else Ok (a + (draws w (drawn w)) mod (b - a + 1),
           {| stdin := stdin w; stdout := stdout w;
              draws := draws w; drawn := S (drawn w) |}).

(** ** Players *)

(** The classes of the source, and [CustomPlayer f] for any further
    subclass whose [move] is a pure function [f] of its four arguments. *)
Inductive PlayerClass : Type :=
| BaseClass
| RandomClass
| UserClass
| StrategicClass
| CustomPlayer (f : Z -> Z -> Z -> Z -> Z).

Record Player : Type := mkPlayer {
  name : string;
  class : PlayerClass
}.

Module RandomPlayer.
Definition move (current min_step max_step goal : Z) : M Z :=
  randint min_step max_step.
End RandomPlayer.

Module UserPlayer.
(** The [while True] loop reads one line per iteration, so it recurses on
    the lines that are left. *)
Fixpoint move_loop (lines : list (option Z)) (min_step max_step : Z)
         (w : World) : outcome (Z * World) :=
  match lines with
  | [] => Raise EOFError
  | l :: rest =>
      let w1 := {| stdin := rest;
                   stdout := stdout w ++ [PromptLine min_step max_step];
                   draws := draws w; drawn := drawn w |} in
      match l with
      | None => Raise ValueError
      | Some move =>
          if (min_step <=? move) && (move <=? max_step)
          then Ok (move, w1)
          else move_loop rest min_step max_step (emit [InvalidLine] w1)
      end
  end.

Definition move (current min_step max_step goal : Z) : M Z :=
  fun w => move_loop (stdin w) min_step max_step w.
End UserPlayer.

Module StrategicPlayer.
Definition move (current min_step max_step goal : Z) : M Z :=
  let remaining := goal - current in
  if remaining >=? max_step then ret max_step
  else if remaining <? min_step then ret min_step
  else py_mod remaining (max_step + 1).
End StrategicPlayer.

(** Method dispatch of [player.move(...)]. *)
Definition call_move (p : Player) (current min_step max_step goal : Z) : M Z :=
  match class p with
  | BaseClass => raise NotImplementedError
  | RandomClass => RandomPlayer.move current min_step max_step goal
  | UserClass => UserPlayer.move current min_step max_step goal
  | StrategicClass => StrategicPlayer.move current min_step max_step goal
  | CustomPlayer f => ret (f current min_step max_step goal)
  end.

(** ** The game *)

Module NumberGame.
Record t : Type := mk {
  goal : Z;
  min_step : Z;
  max_step : Z;
  current : Z;
  players : Player * Player;
  turn : Z
}.

Definition __init__ (goal min_step max_step : Z) (players : Player * Player)
  : M t :=
  ret {| goal := goal; min_step := min_step; max_step := max_step;
         current := 0; players := players; turn := 0 |}.

Definition whose_turn (self : t) (turn : Z) : Player :=
  if turn mod 2 =? 0 then fst (players self) else snd (players self).

Definition play_one_turn (self : t) : M t :=
  let next_player := whose_turn self (turn self) in
  amount <- call_move next_player (current self) (min_step self)
                      (max_step self) (goal self) ;;
  let self' := {| goal := goal self; min_step := min_step self;
                  max_step := max_step self;
                  current := current self + amount;
                  players := players self;
                  turn := turn self + 1 |} in
  print (MovesLine (name next_player) amount) ;;;
  print (TotalLine (current self')) ;;;
  ret self'.

(** [while self.current < self.goal: self.play_one_turn()], with one unit
    of fuel per iteration. *)
Fixpoint play_loop (fuel : nat) (self : t) : M t :=
  if current self <? goal self then
    match fuel with
    | O => fun _ => OutOfFuel
    | S fuel' => self' <- play_one_turn self ;; play_loop fuel' self'
    end
  else ret self.

(** [play] returns the winner's name; the session it leaves behind is
    returned with it. *)
Definition play (fuel : nat) (self : t) : M (string * t) :=
  self' <- play_loop fuel self ;;
  let winner := whose_turn self' (turn self' - 1) in
  ret (name winner, self').
End NumberGame.
Import NumberGame.

(** One round as [main] starts it: [g = NumberGame(...); winner = g.play()]. *)
Definition round (fuel : nat) (goal min_step max_step : Z)
           (players : Player * Player) : M (string * NumberGame.t) :=
  g <- __init__ goal min_step max_step players ;;
  play fuel g.

(** ** Vocabulary of the specification *)

(** The configuration precondition [0 < min_step <= max_step <= goal]. *)
Definition valid_config (goal min_step max_step : Z) : Prop :=
  0 < min_step /\ min_step <= max_step /\ max_step <= goal.

Definition valid_configb (goal min_step max_step : Z) : bool :=
  (0 <? min_step) && (min_step <=? max_step) && (max_step <=? goal).

(** [ceil(a / b)] for a positive [b]. *)
Definition ceil_div (a b : Z) : Z := - ((- a) / b).

(** The plain goal-seeking strategy the strategic one is compared with: it
    differs from [StrategicPlayer.move] only in the last branch, where it
    returns [remaining] itself. *)
Definition simple_move (current min_step max_step goal : Z) : M Z :=
  let remaining := goal - current in
  if remaining >=? max_step then ret max_step
  else if remaining <? min_step then ret min_step
  else ret remaining.

(** A player whose [move] neither reads the keyboard nor draws a random
    number. *)
Definition deterministic (p : Player) : bool :=
  match class p with
  | RandomClass | UserClass => false
  | BaseClass | StrategicClass | CustomPlayer _ => true
  end.

(** A player whose moves, asked for while the goal is not reached, are
    returned and are never below [min_step]. *)
Definition advancing (p : Player) (goal min_step max_step : Z) : Prop :=
  forall current w, current < goal ->
    exists amount w',
      call_move p current min_step max_step goal w = Ok (amount, w')
      /\ min_step <= amount.

(** Big-step reading of the [while] loop: [loop_run g w g' w'] when the loop
    entered in session [g] and world [w] exits in [g'] and [w']. *)
Inductive loop_run : NumberGame.t -> World -> NumberGame.t -> World -> Prop :=
| loop_exit g w :
    goal g <= current g -> loop_run g w g w
| loop_iter g w g1 w1 g' w' :
    current g < goal g ->
    play_one_turn g w = Ok (g1, w1) ->
    loop_run g1 w1 g' w' ->
    loop_run g w g' w'.

(** The iterations alone: [turns g w n g' w'] when [n] successive turns, each
    entered with the goal not reached, lead from [g], [w] to [g'], [w']. *)
Inductive turns : NumberGame.t -> World -> nat -> NumberGame.t -> World -> Prop :=
| turns_none g w : turns g w O g w
| turns_more g w n g1 w1 g' w' :
    turns g w n g1 w1 ->
    current g1 < goal g1 ->
    play_one_turn g1 w1 = Ok (g', w') ->
    turns g w (S n) g' w'.

(** ** Vocabulary for the players and the printed lines *)

(** A player of one of the three classes [make_player] can build. *)
Definition legal_class (p : Player) : bool :=
  match class p with
  | RandomClass | UserClass | StrategicClass => true
  | BaseClass | CustomPlayer _ => false
  end.

(** The amounts of the "moves" lines of an output, in order. *)
Definition amounts (out : list Line) : list Z :=
  flat_map (fun l => match l with MovesLine _ a => [a] | _ => [] end) out.

(** The running sums of [steps] from [start]. *)
Fixpoint running (start : Z) (steps : list Z) : list Z :=
  match steps with
  | [] => []
  | a :: rest => (start + a) :: running (start + a) rest
  end.

(** What [UserPlayer.move] prints while it turns down the answers
    [rejected]: a prompt and a complaint for each. *)
Definition asked_again (min_step max_step : Z) (rejected : list Z) : list Line :=
  flat_map (fun _ => [PromptLine min_step max_step; InvalidLine]) rejected.

(** Where two strategic players stop a count that is [remaining] short of
    the goal: on the goal itself, unless the last stretch
    [remaining mod max_step] is positive and shorter than [min_step]. *)
Definition strategic_advance (remaining min_step max_step : Z) : Z :=
  let r := remaining mod max_step in
  if (r =? 0) || (min_step <=? r) then remaining
  else remaining - r + min_step.

(** ** The console program *)

(** Text typed at the keyboard is a byte string.  [lower] is [str.lower()]
    on the ASCII capitals, the only ones that can turn an answer into one of
    the three type names it is compared with. *)
Definition lower_char (c : Ascii.ascii) : Ascii.ascii :=
  let n := Ascii.nat_of_ascii c in
  if ((65 <=? n) && (n <=? 90))%nat then Ascii.ascii_of_nat (n + 32) else c.

Fixpoint lower (s : string) : string :=
  match s with
  | EmptyString => EmptyString
  | String c rest => String (lower_char c) (lower rest)
  end.

(** What ends the program early: an exception of the game, or the
    [TypeError] of a constructor called with the wrong number of
    arguments. *)
Inductive crash : Type :=
| GameError (e : exn)
| TypeError.

(** What the program shows on the console: the lines of a round, and the
    prompts and lines of [make_player] and [main]. *)
Inductive Shown : Type :=
| GameLine (l : Line)
| GoalPrompt                       (* 'Enter goal amount: ' *)
| MinPrompt                        (* 'Enter minimum move: ' *)
| MaxPrompt                        (* 'Enter maximum move: ' *)
| NamePrompt (generic : string)    (* f'Enter a name {generic_name}: ' *)
| TypePrompt (generic : string)    (* f'Select player type for {generic_name}(random/user/strategic): ' *)
| InvalidTypeLine                  (* 'Invalid player type. Choosing RandomPlayer by default.' *)
| WinnerLine (winner : string)     (* f'And {winner} is the winner!!!' *)
| PlayerLine (p : Player)          (* print(p1): the object's default text *)
| AgainPrompt                      (* 'Again? (y/n) ' *)
| ThanksLine.                      (* 'Thanks for playing!' *)

(** The console: the lines of text still to be typed, what has been shown,
    and the random source. *)
Record Console : Type := mkConsole {
  typed  : list string;
  shown  : list Shown;
  rolls  : nat -> Z;
  rolled : nat
}.

Inductive run (A : Type) : Type :=
| Returns (a : A)
| Crashes (c : crash)
| Unfinished.
Arguments Returns {A} a.
Arguments Crashes {A} c.
Arguments Unfinished {A}.

Definition CM (A : Type) : Type := Console -> run (A * Console).

Definition creturn {A} (a : A) : CM A := fun c => Returns (a, c).
Definition cfail {A} (e : crash) : CM A := fun _ => Crashes e.
Definition cbind {A B} (m : CM A) (k : A -> CM B) : CM B :=
  fun c => match m c with
           | Returns (a, c') => k a c'
           | Crashes e => Crashes e
           | Unfinished => Unfinished
           end.
Definition show (l : Shown) : CM unit := fun c =>
  Returns (tt, {| typed := typed c; shown := shown c ++ [l];
                  rolls := rolls c; rolled := rolled c |}).

Notation "x <~ m ;; k" := (cbind m (fun x => k))
  (at level 61, m at next level, right associativity).
Notation "m ~;; k" := (cbind m (fun _ => k))
  (at level 61, right associativity).

(** [input(prompt)]: shows the prompt and returns the next line typed. *)
Definition input (prompt : Shown) : CM string := fun c =>
  match typed c with
  | [] => Crashes (GameError EOFError)
  | line :: rest =>
      Returns (line, {| typed := rest; shown := shown c ++ [prompt];
                        rolls := rolls c; rolled := rolled c |})
  end.

(** [Player.__init__(self, name)], inherited by every player class: a call
    with any other number of arguments is a [TypeError]. *)
Definition new_player (cls : PlayerClass) (args : list string) : CM Player :=
  match args with
  | [name] => creturn (mkPlayer name cls)
  | _ => cfail TypeError
  end.

Section ConsoleProgram.

(** Python's [int()] on a line of text: [None] when the text is not an
    integer. *)
Variable py_int : string -> option Z.

(** [int(input(prompt))]. *)
Definition int_input (prompt : Shown) : CM Z :=
  line <~ input prompt ;;
  match py_int line with
  | Some z => creturn z
  | None => cfail (GameError ValueError)
  end.

(** A round runs in the world the console stands for: the lines typed as
    [int()] reads them and the same random source.  What the round printed
    is shown, and the lines it did not read are left to be typed. *)
Definition to_world (c : Console) : World :=
  {| stdin := map py_int (typed c); stdout := [];
     draws := rolls c; drawn := rolled c |}.

Definition from_world (c : Console) (w : World) : Console :=
  {| typed := skipn (List.length (typed c) - List.length (stdin w)) (typed c);
     shown := shown c ++ map GameLine (stdout w);
     rolls := draws w; rolled := drawn w |}.

Definition in_game {A} (m : M A) : CM A := fun c =>
  match m (to_world c) with
  | Ok (a, w) => Returns (a, from_world c w)
  | Raise e => Crashes (GameError e)
  | OutOfFuel => Unfinished
  end.

Definition make_player (generic_name : string) : CM Player :=
  name <~ input (NamePrompt generic_name) ;;
  answer <~ input (TypePrompt generic_name) ;;
  let player_type := lower answer in
  if (player_type =? "random")%string then new_player RandomClass [name]
  else if (player_type =? "user")%string then new_player UserClass [name]
  else if (player_type =? "strategic")%string
       then new_player StrategicClass [name]
  else show InvalidTypeLine ~;; new_player RandomClass [].

(** The [while True] loop of [main], one unit of [rounds] per round played;
    [fuel] is the fuel of each round. *)
Fixpoint main_loop (rounds fuel : nat) (goal minimum maximum : Z)
         (p1 p2 : Player) : CM unit :=
  match rounds with
  | O => fun _ => Unfinished
  | S rounds' =>
      played <~ in_game (round fuel goal minimum maximum (p1, p2)) ;;
      show (WinnerLine (fst played)) ~;;
      show (PlayerLine p1) ~;;
      show (PlayerLine p2) ~;;
      again <~ input AgainPrompt ;;
      if negb (again =? "y")%string then show ThanksLine
      else main_loop rounds' fuel goal minimum maximum p1 p2
  end.

Definition main (rounds fuel : nat) : CM unit :=
  goal <~ int_input GoalPrompt ;;
  minimum <~ int_input MinPrompt ;;
  maximum <~ int_input MaxPrompt ;;
  p1 <~ make_player "p1" ;;
  p2 <~ make_player "p2" ;;
  main_loop rounds fuel goal minimum maximum p1 p2.

End ConsoleProgram.

(** * Properties *)

(** ** The strategic player *)

Lemma valid_configb_spec goal mn mx :
  valid_configb goal mn mx = true <-> valid_config goal mn mx.
Proof.
  unfold valid_configb, valid_config.
  rewrite !andb_true_iff, Z.ltb_lt, !Z.leb_le. tauto.
Qed.

Lemma py_mod_small a b w :
  0 <= a < b -> py_mod a b w = Ok (a, w).
Proof.
  intros H. unfold py_mod.
  destruct (Z.eqb_spec b 0) as [E|_]; [lia|].
  unfold ret. now rewrite Z.mod_small.
Qed.

Lemma strategic_take_max current mn mx goal w :
  mx <= goal - current ->
  StrategicPlayer.move current mn mx goal w = Ok (mx, w).
Proof.
  intros H. unfold StrategicPlayer.move.
  destruct (Z.geb_spec (goal - current) mx); [reflexivity | lia].
Qed.

Lemma strategic_take_min current mn mx goal w :
  goal - current < mx -> goal - current < mn ->
  StrategicPlayer.move current mn mx goal w = Ok (mn, w).
Proof.
  intros H1 H2. unfold StrategicPlayer.move.
  destruct (Z.geb_spec (goal - current) mx); [lia|].
  destruct (Z.ltb_spec (goal - current) mn); [reflexivity | lia].
Qed.

Lemma strategic_take_mod current mn mx goal :
  mn <= goal - current < mx ->
  StrategicPlayer.move current mn mx goal
  = py_mod (goal - current) (mx + 1).
Proof.
  intros H. unfold StrategicPlayer.move.
  destruct (Z.geb_spec (goal - current) mx); [lia|].
  destruct (Z.ltb_spec (goal - current) mn); [lia | reflexivity].
Qed.

(** C1. Under [0 < min_step <= max_step <= goal], with
    [remaining = goal - current], [StrategicPlayer.move] returns [max_step]
    when [remaining >= max_step], [min_step] when [remaining < min_step],
    and otherwise [remaining mod (max_step + 1)], a non-negative
    remainder. *)
Theorem strategic_move_cases current mn mx goal w :
  valid_config goal mn mx ->
  let remaining := goal - current in
  (mx <= remaining ->
     StrategicPlayer.move current mn mx goal w = Ok (mx, w))
  /\ (remaining < mn ->
     StrategicPlayer.move current mn mx goal w = Ok (mn, w))
  /\ (mn <= remaining < mx ->
     StrategicPlayer.move current mn mx goal w
       = Ok (remaining mod (mx + 1), w)
     /\ 0 <= remaining mod (mx + 1) < mx + 1).
Proof.
  intros (Hmn & Hle & Hg) remaining. subst remaining.
  split; [|split].
  - apply strategic_take_max.
  - intros H. apply strategic_take_min; lia.
  - intros H. rewrite strategic_take_mod by assumption.
    split.
    + unfold py_mod. destruct (Z.eqb_spec (mx + 1) 0); [lia | reflexivity].
    + apply Z.mod_pos_bound. lia.
Qed.

Lemma strategic_move_cases_witness :
  valid_config 10 2 5
  /\ StrategicPlayer.move 0 2 5 10 (mkWorld [] [] (fun _ => 0) O)
     = Ok (5, mkWorld [] [] (fun _ => 0) O)
  /\ StrategicPlayer.move 7 2 5 10 (mkWorld [] [] (fun _ => 0) O)
     = Ok (3 mod 6, mkWorld [] [] (fun _ => 0) O).
Proof.
  assert (V : valid_config 10 2 5) by (unfold valid_config; lia).
  split; [exact V|].
  split.
  - apply (strategic_move_cases 0 2 5 10 _ V). lia.
  - apply (strategic_move_cases 7 2 5 10 _ V). lia.
Defined.

Lemma strategic_in_range current mn mx goal w :
  valid_config goal mn mx ->
  exists amount,
    StrategicPlayer.move current mn mx goal w = Ok (amount, w)
    /\ mn <= amount <= mx.
Proof.
  intros (Hmn & Hle & Hg).
  destruct (Z_le_gt_dec mx (goal - current)) as [Hbig|Hsmall].
  - exists mx. split; [now apply strategic_take_max | lia].
  - destruct (Z_lt_le_dec (goal - current) mn) as [Hlow|Hmid].
    + exists mn. split; [apply strategic_take_min; lia | lia].
    + exists (goal - current). split; [|lia].
      rewrite strategic_take_mod by lia. apply py_mod_small. lia.
Qed.

(** C10. Under the valid-config precondition, in the last branch
    ([min_step <= goal - current < max_step]) the remainder
    [remaining mod (max_step + 1)] is [remaining] itself, so
    [StrategicPlayer.move] agrees with [simple_move] on every input, and its
    result always lies in [[min_step, max_step]]. *)
Theorem strategic_refines_simple current mn mx goal w :
  valid_config goal mn mx ->
  (mn <= goal - current < mx ->
     (goal - current) mod (mx + 1) = goal - current)
  /\ StrategicPlayer.move current mn mx goal w
     = simple_move current mn mx goal w
  /\ exists amount,
       StrategicPlayer.move current mn mx goal w = Ok (amount, w)
       /\ mn <= amount <= mx.
Proof.
  intros V. pose proof V as (Hmn & Hle & Hg).
  split; [|split].
  - intros H. apply Z.mod_small. lia.
  - unfold StrategicPlayer.move, simple_move.
    destruct (Z.geb_spec (goal - current) mx); [reflexivity|].
    destruct (Z.ltb_spec (goal - current) mn); [reflexivity|].
    apply py_mod_small. lia.
  - now apply strategic_in_range.
Qed.

Lemma strategic_refines_simple_witness :
  valid_config 10 3 5
  /\ StrategicPlayer.move 6 3 5 10 (mkWorld [] [] (fun _ => 0) O)
     = simple_move 6 3 5 10 (mkWorld [] [] (fun _ => 0) O).
Proof.
  assert (V : valid_config 10 3 5) by (unfold valid_config; lia).
  split; [exact V|].
  exact (proj1 (proj2 (strategic_refines_simple 6 3 5 10 _ V))).
Defined.

(** C5, as stated, fails: no input with a valid configuration in the last
    branch makes [StrategicPlayer.move] return a value outside
    [[min_step, max_step]]. *)
Lemma strategic_no_escape_when_valid :
  ~ exists current mn mx goal w amount w',
      valid_config goal mn mx
      /\ mn <= goal - current < mx
      /\ StrategicPlayer.move current mn mx goal w = Ok (amount, w')
      /\ (amount < mn \/ mx < amount).
Proof.
  intros (current & mn & mx & goal & w & amount & w' & V & Hbr & Hmv & Hout).
  destruct V as (Hmn & Hle & Hg).
  rewrite strategic_take_mod in Hmv by assumption.
  rewrite py_mod_small in Hmv by lia.
  injection Hmv as <- _. lia.
Qed.

(** C5, amended. For every input with a valid configuration in the last
    branch, [remaining mod (max_step + 1)] is not below [min_step], and the
    move returned lies in [[min_step, max_step]]. *)
Theorem strategic_last_branch_in_range current mn mx goal w :
  valid_config goal mn mx ->
  mn <= goal - current < mx ->
  ~ (goal - current) mod (mx + 1) < mn
  /\ exists amount,
       StrategicPlayer.move current mn mx goal w = Ok (amount, w)
       /\ mn <= amount <= mx.
Proof.
  intros (Hmn & Hle & Hg) Hbr.
  assert (E : (goal - current) mod (mx + 1) = goal - current)
    by (apply Z.mod_small; lia).
  split; [lia|].
  exists (goal - current). split; [|lia].
  rewrite strategic_take_mod by assumption. apply py_mod_small. lia.
Qed.

Lemma strategic_last_branch_in_range_witness :
  valid_config 10 2 5 /\ 2 <= 10 - 7 < 5
  /\ exists amount,
       StrategicPlayer.move 7 2 5 10 (mkWorld [] [] (fun _ => 0) O)
       = Ok (amount, mkWorld [] [] (fun _ => 0) O)
       /\ 2 <= amount <= 5.
Proof.
  assert (V : valid_config 10 2 5) by (unfold valid_config; lia).
  assert (B : 2 <= 10 - 7 < 5) by lia.
  split; [exact V|]. split; [exact B|].
  exact (proj2 (strategic_last_branch_in_range 7 2 5 10 _ V B)).
Defined.

(** Outside the precondition the last branch can leave the range: with a
    negative [max_step] the remainder takes the sign of [max_step + 1]. *)
Example strategic_escapes_when_invalid w :
  StrategicPlayer.move 5 (-10) (-3) 0 w = Ok (-1, w).
Proof. reflexivity. Qed.

(** With [max_step = -1] the last branch divides by zero. *)
Example strategic_divides_by_zero w :
  StrategicPlayer.move 5 (-10) (-1) 0 w = Raise ZeroDivisionError.
Proof. reflexivity. Qed.

(** ** Construction *)

(** C4, as stated, fails: a triple that violates the precondition
    ([min_step = 0]) is accepted by the constructor. *)
Lemma init_accepts_invalid :
  ~ valid_config 5 0 3
  /\ exists g w',
       __init__ 5 0 3 (mkPlayer "a" StrategicClass, mkPlayer "b" RandomClass)
                (mkWorld [] [] (fun _ => 0) O) = Ok (g, w').
Proof.
  split.
  - unfold valid_config. lia.
  - eexists. eexists. reflexivity.
Qed.

(** C4, amended. The constructor checks nothing: for every triple, valid or
    not, it returns a session holding the three values as given, with
    [current = 0] and [turn = 0], and leaves the world untouched. *)
Theorem init_never_rejects g_goal mn mx ps w :
  __init__ g_goal mn mx ps w
  = Ok ({| goal := g_goal; min_step := mn; max_step := mx;
           current := 0; players := ps; turn := 0 |}, w).
Proof. reflexivity. Qed.

(** ** Whose turn *)

Lemma mod2_even t : (t mod 2 =? 0) = Z.even t.
Proof.
  rewrite Zmod_even. destruct (Z.even t); reflexivity.
Qed.

(** C6. [whose_turn t] is [players[0]] when [t] is even and [players[1]]
    otherwise, so for two distinct players it is [players[0]] exactly when
    [t] is even; it is the same in any two sessions with the same players,
    whatever their counts, goals and step bounds. *)
Theorem whose_turn_parity (self : NumberGame.t) (t : Z) :
  0 <= t ->
  (Z.even t = true -> whose_turn self t = fst (players self))
  /\ (Z.even t = false -> whose_turn self t = snd (players self))
  /\ (fst (players self) <> snd (players self) ->
      (whose_turn self t = fst (players self) <-> Z.even t = true))
  /\ (forall other t',
        players other = players self -> Z.even t' = Z.even t ->
        whose_turn other t' = whose_turn self t).
Proof.
  intros _. unfold whose_turn.
  repeat split.
  - intros E. now rewrite mod2_even, E.
  - intros E. now rewrite mod2_even, E.
  - rewrite mod2_even. destruct (Z.even t); [reflexivity|].
    intros E. symmetry in E. contradiction.
  - intros E. now rewrite mod2_even, E.
  - intros other t' Hp He. now rewrite !mod2_even, Hp, He.
Qed.

Lemma whose_turn_parity_witness :
  0 <= 4
  /\ whose_turn
       {| goal := 7; min_step := 3; max_step := 3; current := 6;
          players := (mkPlayer "a" StrategicClass, mkPlayer "b" UserClass);
          turn := 2 |} 4
     = mkPlayer "a" StrategicClass.
Proof.
  assert (H : 0 <= 4) by lia.
  split; [exact H|].
  exact (proj1 (whose_turn_parity
                  {| goal := 7; min_step := 3; max_step := 3; current := 6;
                     players := (mkPlayer "a" StrategicClass,
                                 mkPlayer "b" UserClass);
                     turn := 2 |} 4 H) eq_refl).
Defined.

(** ** One turn *)

Lemma emit_emit a b w : emit b (emit a w) = emit (a ++ b) w.
Proof. unfold emit. simpl. now rewrite app_assoc. Qed.

Lemma emit_nil w : emit [] w = w.
Proof. destruct w. unfold emit. simpl. now rewrite app_nil_r. Qed.

Lemma stdout_emit out w : stdout (emit out w) = stdout w ++ out.
Proof. reflexivity. Qed.

Lemma move_loop_fuel_free lines mn mx w :
  UserPlayer.move_loop lines mn mx w <> OutOfFuel.
Proof.
  revert w. induction lines as [|[mv|] rest IH]; intros w; simpl;
    try discriminate.
  destruct ((mn <=? mv) && (mv <=? mx)); [discriminate | apply IH].
Qed.

Lemma call_move_fuel_free p c mn mx g w :
  call_move p c mn mx g w <> OutOfFuel.
Proof.
  unfold call_move. destruct (class p); try discriminate.
  - unfold RandomPlayer.move, randint. destruct (mx <? mn); discriminate.
  - apply move_loop_fuel_free.
  - unfold StrategicPlayer.move, py_mod, ret, raise.
    destruct (g - c >=? mx); [discriminate|].
    destruct (g - c <? mn); [discriminate|].
    destruct (mx + 1 =? 0); discriminate.
Qed.

(** What a turn does, read off the mover's answer. *)
Lemma play_one_turn_eq self w :
  play_one_turn self w
  = match call_move (whose_turn self (turn self)) (current self)
                    (min_step self) (max_step self) (goal self) w with
    | Ok (amount, w1) =>
        Ok ({| goal := goal self; min_step := min_step self;
               max_step := max_step self;
               current := current self + amount;
               players := players self; turn := turn self + 1 |},
            emit [MovesLine (name (whose_turn self (turn self))) amount;
                  TotalLine (current self + amount)] w1)
    | Raise e => Raise e
    | OutOfFuel => OutOfFuel
    end.
Proof.
  unfold play_one_turn, bind.
  destruct (call_move _ _ _ _ _ w) as [[amount w1]| |]; try reflexivity.
  unfold print, ret. simpl. now rewrite emit_emit.
Qed.

Lemma play_one_turn_keeps self w self' w' :
  play_one_turn self w = Ok (self', w') ->
  goal self' = goal self /\ min_step self' = min_step self
  /\ max_step self' = max_step self /\ players self' = players self
  /\ turn self' = turn self + 1.
Proof.
  rewrite play_one_turn_eq.
  destruct (call_move _ _ _ _ _ w) as [[amount w1]| |]; try discriminate.
  intros H. injection H as <- <-. repeat split.
Qed.

(** C9. A call of [play_one_turn] that returns leaves [goal], [min_step],
    [max_step] and [players] as they were, adds to [current] exactly the
    amount the mover returned, whatever it is, and adds one to [turn]; a
    call that raises does so inside the mover's [move], before any field is
    assigned. *)
Theorem play_one_turn_frame self w :
  (forall self' w', play_one_turn self w = Ok (self', w') ->
     goal self' = goal self
     /\ min_step self' = min_step self
     /\ max_step self' = max_step self
     /\ players self' = players self
     /\ turn self' = turn self + 1
     /\ exists amount w1,
          call_move (whose_turn self (turn self)) (current self)
                    (min_step self) (max_step self) (goal self) w
          = Ok (amount, w1)
          /\ current self' = current self + amount)
  /\ (forall e, play_one_turn self w = Raise e ->
        call_move (whose_turn self (turn self)) (current self)
                  (min_step self) (max_step self) (goal self) w = Raise e).
Proof.
  rewrite play_one_turn_eq.
  destruct (call_move _ _ _ _ _ w) as [[amount w1]| |] eqn:E.
  - split; [|discriminate].
    intros self' w' H. injection H as <- <-. simpl.
    repeat split. exists amount, w1. split; reflexivity.
  - split; [discriminate|]. intros e0 H. injection H as <-. reflexivity.
  - split; discriminate.
Qed.

Lemma play_one_turn_frame_witness :
  play_one_turn
    {| goal := 10; min_step := 1; max_step := 3; current := 4;
       players := (mkPlayer "a" (CustomPlayer (fun _ _ _ _ => 100)),
                   mkPlayer "b" StrategicClass);
       turn := 0 |} (mkWorld [] [] (fun _ => 0) O)
  = Ok ({| goal := 10; min_step := 1; max_step := 3; current := 104;
           players := (mkPlayer "a" (CustomPlayer (fun _ _ _ _ => 100)),
                       mkPlayer "b" StrategicClass);
           turn := 1 |},
        mkWorld [] [MovesLine "a" 100; TotalLine 104] (fun _ => 0) O)
  /\ exists amount w1,
       call_move (mkPlayer "a" (CustomPlayer (fun _ _ _ _ => 100))) 4 1 3 10
                 (mkWorld [] [] (fun _ => 0) O) = Ok (amount, w1)
       /\ 104 = 4 + amount.
Proof.
  assert (E : play_one_turn
    {| goal := 10; min_step := 1; max_step := 3; current := 4;
       players := (mkPlayer "a" (CustomPlayer (fun _ _ _ _ => 100)),
                   mkPlayer "b" StrategicClass);
       turn := 0 |} (mkWorld [] [] (fun _ => 0) O)
  = Ok ({| goal := 10; min_step := 1; max_step := 3; current := 104;
           players := (mkPlayer "a" (CustomPlayer (fun _ _ _ _ => 100)),
                       mkPlayer "b" StrategicClass);
           turn := 1 |},
        mkWorld [] [MovesLine "a" 100; TotalLine 104] (fun _ => 0) O))
    by reflexivity.
  split; [exact E|].
  exact (proj2 (proj2 (proj2 (proj2 (proj2
           (proj1 (play_one_turn_frame _ _) _ _ E)))))).
Defined.

(** ** The loop *)

Lemma play_loop_done n g w :
  goal g <= current g -> play_loop n g w = Ok (g, w).
Proof.
  intros H. destruct n; simpl;
    (destruct (Z.ltb_spec (current g) (goal g)); [lia | reflexivity]).
Qed.

Lemma play_loop_more n g w :
  current g < goal g ->
  play_loop (S n) g w = bind (play_one_turn g) (play_loop n) w.
Proof.
  intros H. simpl.
  destruct (Z.ltb_spec (current g) (goal g)); [reflexivity | lia].
Qed.

Lemma play_loop_dry g w :
  current g < goal g -> play_loop O g w = OutOfFuel.
Proof.
  intros H. simpl.
  destruct (Z.ltb_spec (current g) (goal g)); [reflexivity | lia].
Qed.

Lemma play_loop_sound n : forall g w g' w',
  play_loop n g w = Ok (g', w') -> loop_run g w g' w'.
Proof.
  induction n as [|n IH]; intros g w g' w' H;
    destruct (Z_lt_le_dec (current g) (goal g)) as [Hlt|Hge].
  - rewrite play_loop_dry in H by assumption. discriminate.
  - rewrite play_loop_done in H by assumption.
    injection H as <- <-. now apply loop_exit.
  - rewrite play_loop_more in H by assumption. unfold bind in H.
    destruct (play_one_turn g w) as [[g1 w1]| |] eqn:E; try discriminate.
    eapply loop_iter; eauto.
  - rewrite play_loop_done in H by assumption.
    injection H as <- <-. now apply loop_exit.
Qed.

Lemma play_loop_mono n : forall g w r m,
  play_loop n g w = Ok r -> (n <= m)%nat -> play_loop m g w = Ok r.
Proof.
  induction n as [|n IH]; intros g w r m H Hle;
    destruct (Z_lt_le_dec (current g) (goal g)) as [Hlt|Hge];
    try (rewrite play_loop_done in * by assumption; assumption).
  - rewrite play_loop_dry in H by assumption. discriminate.
  - destruct m as [|m]; [lia|].
    rewrite play_loop_more in * by assumption. unfold bind in *.
    destruct (play_one_turn g w) as [[g1 w1]| |]; try discriminate.
    apply IH; [assumption | lia].
Qed.

Lemma turns_first g w g1 w1 n g' w' :
  current g < goal g ->
  play_one_turn g w = Ok (g1, w1) ->
  turns g1 w1 n g' w' ->
  turns g w (S n) g' w'.
Proof.
  intros Hlt Hstep Hrest.
  induction Hrest as [g1 w1 | g1 w1 n g2 w2 g' w' _ IH Hlt2 Hstep2].
  - eapply turns_more; [apply turns_none | assumption | assumption].
  - eapply turns_more; [apply IH; assumption | assumption | assumption].
Qed.

Lemma turns_frame g w n g' w' :
  turns g w n g' w' ->
  goal g' = goal g /\ min_step g' = min_step g /\ max_step g' = max_step g
  /\ players g' = players g /\ turn g' = turn g + Z.of_nat n.
Proof.
  induction 1 as [g w | g w n g1 w1 g' w' _ IH Hlt Hstep].
  - repeat split. simpl. lia.
  - destruct IH as (Hg & Hmn & Hmx & Hp & Ht).
    destruct (play_one_turn_keeps _ _ _ _ Hstep)
      as (Hg' & Hmn' & Hmx' & Hp' & Ht').
    repeat split; try congruence. lia.
Qed.

Lemma loop_run_turns g w g' w' :
  loop_run g w g' w' ->
  goal g' <= current g' /\ exists n, turns g w n g' w'.
Proof.
  induction 1 as [g w Hge | g w g1 w1 g' w' Hlt Hstep _ (Hge & n & Hn)].
  - split; [assumption|]. exists O. apply turns_none.
  - split; [assumption|]. exists (S n).
    eapply turns_first; eassumption.
Qed.

Lemma turns_play_loop g w n g' w' :
  turns g w n g' w' -> goal g' <= current g' ->
  play_loop n g w = Ok (g', w').
Proof.
  intros H.
  assert (G : forall k r, play_loop k g' w' = Ok r ->
                          play_loop (n + k) g w = Ok r).
  { induction H as [g w | g w n g1 w1 g' w' _ IH Hlt Hstep];
      intros k r Hk; [exact Hk|].
    replace (S n + k)%nat with (n + S k)%nat by lia.
    apply IH.
    rewrite play_loop_more by assumption.
    unfold bind. rewrite Hstep. exact Hk. }
  intros Hge. replace n with (n + 0)%nat by lia.
  apply G. now apply play_loop_done.
Qed.

(** ** The winner *)

Lemma play_inv fuel g w winner g' w' :
  play fuel g w = Ok (winner, g', w') ->
  play_loop fuel g w = Ok (g', w')
  /\ winner = name (whose_turn g' (turn g' - 1)).
Proof.
  unfold play, bind, ret. intros H.
  destruct (play_loop fuel g w) as [[g1 w1]| |]; try discriminate.
  injection H as <- <- <-. split; reflexivity.
Qed.

Lemma round_eq fuel g_goal mn mx ps w :
  round fuel g_goal mn mx ps w
  = play fuel {| goal := g_goal; min_step := mn; max_step := mx;
                 current := 0; players := ps; turn := 0 |} w.
Proof. reflexivity. Qed.

Lemma whose_turn_same_players g g' t :
  players g' = players g -> whose_turn g' t = whose_turn g t.
Proof. unfold whose_turn. now intros ->. Qed.

(** C2. In a round on a valid configuration that returns, the loop has
    played turns exactly while [current < goal]: every turn was entered
    below the goal and the session left behind has [current >= goal].  The
    name returned is that of [whose_turn (turn - 1)], who is the mover of the
    last turn played, the one that brought [current] to the goal or beyond
    it. *)
Theorem play_winner_is_last_mover fuel g_goal mn mx ps w winner g' w' :
  valid_config g_goal mn mx ->
  round fuel g_goal mn mx ps w = Ok (winner, g', w') ->
  goal g' <= current g'
  /\ winner = name (whose_turn g' (turn g' - 1))
  /\ exists n last w_last,
       turns {| goal := g_goal; min_step := mn; max_step := mx;
                current := 0; players := ps; turn := 0 |} w n last w_last
       /\ current last < goal last
       /\ play_one_turn last w_last = Ok (g', w')
       /\ turn last = Z.of_nat n
       /\ turn g' - 1 = turn last
       /\ winner = name (whose_turn last (turn last)).
Proof.
  intros (Hmn & Hle & Hg) H.
  rewrite round_eq in H.
  apply play_inv in H. destruct H as (Hloop & Hw).
  apply play_loop_sound, loop_run_turns in Hloop.
  destruct Hloop as (Hge & n & Hn).
  split; [assumption|]. split; [assumption|].
  inversion Hn as [g0 w0 E1 E2 E3 | g0 w0 k last w_last g2 w2 Hk Hlt Hstep];
    subst.
  - simpl in Hge. lia.
  - exists k, last, w_last.
    destruct (turns_frame _ _ _ _ _ Hk) as (_ & _ & _ & _ & Ht).
    destruct (play_one_turn_keeps _ _ _ _ Hstep)
      as (_ & _ & _ & Hp & Ht').
    simpl in Ht.
    repeat split; try assumption; try lia.
    rewrite (whose_turn_same_players last g') by assumption.
    f_equal. f_equal. lia.
Qed.

Lemma play_winner_is_last_mover_witness :
  valid_config 10 2 5
  /\ exists g' w',
       round 2 10 2 5 (mkPlayer "a" StrategicClass, mkPlayer "b" StrategicClass)
             (mkWorld [] [] (fun _ => 0) O) = Ok ("b"%string, g', w')
       /\ goal g' <= current g'
       /\ "b"%string = name (whose_turn g' (turn g' - 1)).
Proof.
  assert (V : valid_config 10 2 5) by (unfold valid_config; lia).
  split; [exact V|].
  assert (E : round 2 10 2 5
                (mkPlayer "a" StrategicClass, mkPlayer "b" StrategicClass)
                (mkWorld [] [] (fun _ => 0) O)
              = Ok ("b"%string,
                    {| goal := 10; min_step := 2; max_step := 5;
                       current := 10;
                       players := (mkPlayer "a" StrategicClass,
                                   mkPlayer "b" StrategicClass);
                       turn := 2 |},
                    mkWorld [] [MovesLine "a" 5; TotalLine 5;
                                MovesLine "b" 5; TotalLine 10]
                            (fun _ => 0) O)) by reflexivity.
  eexists. eexists. split; [exact E|].
  pose proof (play_winner_is_last_mover _ _ _ _ _ _ _ _ _ V E) as H.
  split; [exact (proj1 H) | exact (proj1 (proj2 H))].
Defined.

(** C7. Scenario B: with [goal = 7] and [min_step = max_step = 3], two
    strategic players and a fresh session, the round prints the totals 3, 6
    and 9, ends after the third move (turn index 2) with [current = 9],
    beyond the goal, and returns the name of [players[0]]. *)
Theorem scenario_b (n0 n1 : string) (w : World) (spare : nat) :
  round (3 + spare) 7 3 3
        (mkPlayer n0 StrategicClass, mkPlayer n1 StrategicClass) w
  = Ok (n0,
        {| goal := 7; min_step := 3; max_step := 3; current := 9;
           players := (mkPlayer n0 StrategicClass, mkPlayer n1 StrategicClass);
           turn := 3 |},
        emit [MovesLine n0 3; TotalLine 3;
              MovesLine n1 3; TotalLine 6;
              MovesLine n0 3; TotalLine 9] w)
  /\ totals [MovesLine n0 3; TotalLine 3;
             MovesLine n1 3; TotalLine 6;
             MovesLine n0 3; TotalLine 9] = [3; 6; 9]
  /\ round 2 7 3 3
        (mkPlayer n0 StrategicClass, mkPlayer n1 StrategicClass) w
     = OutOfFuel.
Proof.
  split; [|split; reflexivity].
  unfold round, __init__, play, bind, ret.
  change (3 + spare)%nat with (S (S (S spare))).
  do 3 (rewrite play_loop_more by (simpl; lia);
        unfold bind at 1; rewrite play_one_turn_eq; cbn -[emit play_loop]).
  rewrite play_loop_done by (simpl; lia).
  cbn -[emit]. now rewrite !emit_emit.
Qed.

(** ** Termination *)

Lemma whose_turn_cases g t :
  whose_turn g t = fst (players g) \/ whose_turn g t = snd (players g).
Proof. unfold whose_turn. destruct (t mod 2 =? 0); auto. Qed.

Lemma ceil_div_covers a b : 0 < b -> a <= ceil_div a b * b.
Proof.
  intros Hb. unfold ceil_div.
  pose proof (Z.div_mod (- a) b ltac:(lia)) as E.
  pose proof (Z.mod_pos_bound (- a) b Hb) as B.
  nia.
Qed.

Lemma ceil_div_nonneg a b : 0 < b -> 0 <= a -> 0 <= ceil_div a b.
Proof.
  intros Hb Ha. unfold ceil_div.
  pose proof (Z.div_mod (- a) b ltac:(lia)) as E.
  pose proof (Z.mod_pos_bound (- a) b Hb) as B.
  nia.
Qed.

(** A player who always answers 0 keeps the loop running for ever. *)
Lemma stalling_loop p fuel : forall g w,
  class p = CustomPlayer (fun _ _ _ _ => 0) ->
  players g = (p, p) ->
  current g < goal g ->
  play_loop fuel g w = OutOfFuel.
Proof.
  induction fuel as [|fuel IH]; intros g w Hc Hp Hlt.
  - now apply play_loop_dry.
  - rewrite play_loop_more by assumption. unfold bind.
    rewrite play_one_turn_eq.
    assert (Hwho : whose_turn g (turn g) = p)
      by (destruct (whose_turn_cases g (turn g)) as [-> | ->];
          rewrite Hp; reflexivity).
    rewrite Hwho. unfold call_move. rewrite Hc. unfold ret.
    apply IH; simpl; [assumption | assumption | lia].
Qed.

(** C3, as stated, fails: on the valid configuration
    [goal = min_step = max_step = 1], two players with the deterministic
    strategy "always 0" never finish the round, whatever the fuel. *)
Lemma stalling_round_never_returns :
  valid_config 1 1 1
  /\ ~ exists fuel r,
         round fuel 1 1 1
               (mkPlayer "a" (CustomPlayer (fun _ _ _ _ => 0)),
                mkPlayer "a" (CustomPlayer (fun _ _ _ _ => 0)))
               (mkWorld [] [] (fun _ => 0) O) = Ok r.
Proof.
  split; [unfold valid_config; lia|].
  intros (fuel & r & H). rewrite round_eq in H.
  unfold play, bind in H.
  rewrite (stalling_loop (mkPlayer "a" (CustomPlayer (fun _ _ _ _ => 0))))
    in H; simpl; try reflexivity; try lia.
  discriminate.
Qed.

Lemma strategic_advancing p g_goal mn mx :
  valid_config g_goal mn mx ->
  class p = StrategicClass ->
  advancing p g_goal mn mx.
Proof.
  intros V Hc current w _. unfold call_move. rewrite Hc.
  destruct (strategic_in_range current mn mx g_goal w V)
    as (amount & Hmv & Hin).
  exists amount, w. split; [assumption | lia].
Qed.

Lemma random_advancing p g_goal mn mx :
  valid_config g_goal mn mx ->
  class p = RandomClass ->
  advancing p g_goal mn mx.
Proof.
  intros (Hmn & Hle & Hg) Hc current w _. unfold call_move. rewrite Hc.
  unfold RandomPlayer.move, randint.
  destruct (Z.ltb_spec mx mn); [lia|].
  eexists. eexists. split; [reflexivity|].
  pose proof (Z.mod_pos_bound (draws w (drawn w)) (mx - mn + 1) ltac:(lia)).
  lia.
Qed.

Lemma advancing_loop_returns n : forall g w,
  0 < min_step g ->
  advancing (fst (players g)) (goal g) (min_step g) (max_step g) ->
  advancing (snd (players g)) (goal g) (min_step g) (max_step g) ->
  goal g - current g <= Z.of_nat n * min_step g ->
  exists g' w',
    play_loop n g w = Ok (g', w') /\ turn g' - turn g <= Z.of_nat n.
Proof.
  induction n as [|n IH]; intros g w Hmn A0 A1 Hrem.
  - exists g, w. split; [apply play_loop_done; lia | lia].
  - destruct (Z_lt_le_dec (current g) (goal g)) as [Hlt|Hge].
    + assert (A : advancing (whose_turn g (turn g))
                            (goal g) (min_step g) (max_step g))
        by (destruct (whose_turn_cases g (turn g)) as [-> | ->]; assumption).
      destruct (A (current g) w Hlt) as (amount & w1 & Hmv & Hamt).
      rewrite play_loop_more by assumption. unfold bind.
      rewrite play_one_turn_eq, Hmv.
      match goal with |- exists _ _, play_loop n ?g1 ?w1 = _ /\ _ =>
        assert (R : goal g1 - current g1 <= Z.of_nat n * min_step g1)
          by (simpl; lia);
        destruct (IH g1 w1 Hmn A0 A1 R) as (g' & w' & Hrun & Ht)
      end.
      exists g', w'. split; [exact Hrun | simpl in Ht; lia].
    + exists g, w. split; [now apply play_loop_done | lia].
Qed.

(** C3, amended. On a valid configuration, two players whose every move is
    at least [min_step] (two strategic players, for instance) finish the
    round, and the round has at most [ceil(goal / min_step)] turns, which is
    below the bound [ceil(goal / min_step) + 1]. *)
Theorem advancing_round_returns g_goal mn mx p0 p1 w :
  valid_config g_goal mn mx ->
  advancing p0 g_goal mn mx ->
  advancing p1 g_goal mn mx ->
  exists winner g' w',
    round (Z.to_nat (ceil_div g_goal mn)) g_goal mn mx (p0, p1) w
    = Ok (winner, g', w')
    /\ turn g' <= ceil_div g_goal mn
    /\ turn g' <= ceil_div g_goal mn + 1.
Proof.
  intros (Hmn & Hle & Hg) A0 A1.
  pose proof (ceil_div_covers g_goal mn Hmn) as Hc.
  pose proof (ceil_div_nonneg g_goal mn Hmn ltac:(lia)) as Hn.
  rewrite round_eq. unfold play, bind, ret.
  match goal with |- context [play_loop ?n ?g0 w] =>
    assert (R : goal g0 - current g0 <= Z.of_nat n * min_step g0)
      by (simpl; rewrite Z2Nat.id by assumption; lia);
    destruct (advancing_loop_returns n g0 w Hmn A0 A1 R)
      as (g' & w' & Hrun & Ht)
  end.
  rewrite Hrun. do 3 eexists. split; [reflexivity|].
  simpl in Ht. rewrite Z2Nat.id in Ht by assumption. lia.
Qed.

Lemma advancing_round_returns_witness :
  valid_config 7 3 3
  /\ exists winner g' w',
       round (Z.to_nat (ceil_div 7 3)) 7 3 3
             (mkPlayer "a" StrategicClass, mkPlayer "b" StrategicClass)
             (mkWorld [] [] (fun _ => 0) O) = Ok (winner, g', w')
       /\ turn g' <= ceil_div 7 3
       /\ turn g' <= ceil_div 7 3 + 1.
Proof.
  assert (V : valid_config 7 3 3) by (unfold valid_config; lia).
  split; [exact V|].
  apply (advancing_round_returns 7 3 3); [exact V | | ];
    apply strategic_advancing; [exact V | reflexivity | exact V | reflexivity].
Defined.

(** ** Replaying a round *)

Lemma deterministic_move p c mn mx g w amount w' :
  deterministic p = true ->
  call_move p c mn mx g w = Ok (amount, w') ->
  w' = w /\ forall w2, call_move p c mn mx g w2 = Ok (amount, w2).
Proof.
  unfold deterministic, call_move.
  destruct (class p); try discriminate; intros _.
  - unfold StrategicPlayer.move, py_mod, ret, raise.
    destruct (g - c >=? mx);
      [|destruct (g - c <? mn); [|destruct (mx + 1 =? 0)]];
      intros H; try discriminate; injection H as <- <-;
      split; reflexivity.
  - unfold ret. intros H. injection H as <- <-. split; reflexivity.
Qed.

Lemma deterministic_turn g w g' w' :
  deterministic (fst (players g)) = true ->
  deterministic (snd (players g)) = true ->
  play_one_turn g w = Ok (g', w') ->
  exists out,
    w' = emit out w /\ forall w2, play_one_turn g w2 = Ok (g', emit out w2).
Proof.
  intros D0 D1 H.
  assert (D : deterministic (whose_turn g (turn g)) = true)
    by (destruct (whose_turn_cases g (turn g)) as [-> | ->]; assumption).
  rewrite play_one_turn_eq in H.
  destruct (call_move _ _ _ _ _ w) as [[amount w1]| |] eqn:E;
    try discriminate.
  destruct (deterministic_move _ _ _ _ _ _ _ _ D E) as (-> & Hany).
  injection H as <- <-.
  eexists. split; [reflexivity|].
  intros w2. now rewrite play_one_turn_eq, Hany.
Qed.

Lemma deterministic_loop n : forall g w g' w',
  deterministic (fst (players g)) = true ->
  deterministic (snd (players g)) = true ->
  play_loop n g w = Ok (g', w') ->
  exists out,
    w' = emit out w /\ forall w2, play_loop n g w2 = Ok (g', emit out w2).
Proof.
  induction n as [|n IH]; intros g w g' w' D0 D1 H;
    destruct (Z_lt_le_dec (current g) (goal g)) as [Hlt|Hge];
    try (rewrite play_loop_done in H by assumption;
         injection H as <- <-; exists [];
         split; [now rewrite emit_nil|];
         intros w2; rewrite emit_nil; now apply play_loop_done).
  - rewrite play_loop_dry in H by assumption. discriminate.
  - rewrite play_loop_more in H by assumption. unfold bind in H.
    destruct (play_one_turn g w) as [[g1 w1]| |] eqn:E; try discriminate.
    destruct (deterministic_turn _ _ _ _ D0 D1 E) as (out1 & -> & Hany1).
    destruct (play_one_turn_keeps _ _ _ _ E)
      as (_ & _ & _ & Hp & _).
    rewrite <- Hp in D0, D1.
    destruct (IH _ _ _ _ D0 D1 H) as (out2 & -> & Hany2).
    exists (out1 ++ out2). split; [now rewrite emit_emit|].
    intros w2. rewrite play_loop_more by assumption. unfold bind.
    now rewrite Hany1, Hany2, emit_emit.
Qed.

(** C8. A round of two players with deterministic strategies that returns
    in one world returns in every other world (in particular in the one the
    first round left behind) with the same winner, the same final session
    and the same lines printed, hence the same turn-by-turn totals; and any
    run of the same round that returns, with whatever fuel, returns exactly
    that. *)
Theorem deterministic_round_repeats fuel g_goal mn mx p0 p1 w winner g' w' :
  valid_config g_goal mn mx ->
  deterministic p0 = true ->
  deterministic p1 = true ->
  round fuel g_goal mn mx (p0, p1) w = Ok (winner, g', w') ->
  exists out,
    w' = emit out w
    /\ (forall w2,
          round fuel g_goal mn mx (p0, p1) w2 = Ok (winner, g', emit out w2))
    /\ (forall fuel2 w2 winner2 g2 w2',
          round fuel2 g_goal mn mx (p0, p1) w2 = Ok (winner2, g2, w2') ->
          winner2 = winner /\ g2 = g'
          /\ exists out2,
               w2' = emit out2 w2 /\ out2 = out
               /\ totals out2 = totals out).
Proof.
  intros _ D0 D1 H. rewrite round_eq in H.
  destruct (play_inv _ _ _ _ _ _ H) as (Hloop & Hw).
  pose proof (fun d0 d1 => deterministic_loop _ _ _ _ _ d0 d1 Hloop) as K.
  destruct (K D0 D1) as (out & -> & Hany). clear K.
  exists out. split; [reflexivity|].
  assert (Hround : forall w2,
            round fuel g_goal mn mx (p0, p1) w2 = Ok (winner, g', emit out w2)).
  { intros w2. rewrite round_eq. unfold play, bind, ret.
    rewrite Hany. now rewrite Hw. }
  split; [exact Hround|].
  intros fuel2 w2 winner2 g2 w2' H2. rewrite round_eq in H2.
  destruct (play_inv _ _ _ _ _ _ H2) as (Hloop2 & Hw2).
  pose proof (play_loop_mono _ _ _ _ (Nat.max fuel fuel2) (Hany w2)
                             (Nat.le_max_l _ _)) as E1.
  pose proof (play_loop_mono _ _ _ _ (Nat.max fuel fuel2) Hloop2
                             (Nat.le_max_r _ _)) as E2.
  rewrite E1 in E2. injection E2 as <- <-.
  split; [congruence|]. split; [reflexivity|].
  exists out. repeat split.
Qed.

Lemma deterministic_round_repeats_witness :
  valid_config 7 3 3
  /\ exists out,
       totals out = [3; 6; 9]
       /\ forall w2,
            round 5 7 3 3
                  (mkPlayer "a" StrategicClass, mkPlayer "b" StrategicClass) w2
            = Ok ("a"%string,
                  {| goal := 7; min_step := 3; max_step := 3; current := 9;
                     players := (mkPlayer "a" StrategicClass,
                                 mkPlayer "b" StrategicClass);
                     turn := 3 |},
                  emit out w2).
Proof.
  assert (V : valid_config 7 3 3) by (unfold valid_config; lia).
  split; [exact V|].
  assert (E : round 5 7 3 3
                (mkPlayer "a" StrategicClass, mkPlayer "b" StrategicClass)
                (mkWorld [] [] (fun _ => 0) O)
              = Ok ("a"%string,
                    {| goal := 7; min_step := 3; max_step := 3; current := 9;
                       players := (mkPlayer "a" StrategicClass,
                                   mkPlayer "b" StrategicClass);
                       turn := 3 |},
                    mkWorld [] [MovesLine "a" 3; TotalLine 3;
                                MovesLine "b" 3; TotalLine 6;
                                MovesLine "a" 3; TotalLine 9]
                            (fun _ => 0) O)) by reflexivity.
  destruct (deterministic_round_repeats
              5 7 3 3 (mkPlayer "a" StrategicClass) (mkPlayer "b" StrategicClass)
              _ _ _ _ V eq_refl eq_refl E) as (out & Hout & Hany & _).
  exists out. split; [|exact Hany].
  apply (f_equal stdout) in Hout. simpl in Hout. now subst out.
Defined.

(** ** Worked rounds *)

(** Scenario A: [goal = 10], steps in [[2, 5]], two strategic players; the
    second mover wins after two turns. *)
Example scenario_a (w : World) :
  round 2 10 2 5 (mkPlayer "p1" StrategicClass, mkPlayer "p2" StrategicClass) w
  = Ok ("p2"%string,
        {| goal := 10; min_step := 2; max_step := 5; current := 10;
           players := (mkPlayer "p1" StrategicClass,
                       mkPlayer "p2" StrategicClass);
           turn := 2 |},
        emit [MovesLine "p1" 5; TotalLine 5; MovesLine "p2" 5; TotalLine 10] w).
Proof.
  rewrite round_eq. unfold play, bind, ret.
  do 2 (rewrite play_loop_more by (simpl; lia);
        unfold bind at 1; rewrite play_one_turn_eq; cbn -[emit play_loop]).
  rewrite play_loop_done by (simpl; lia).
  cbn -[emit]. now rewrite !emit_emit.
Qed.

(** Boundary: [min_step = max_step = goal] ends in one turn, won by
    [players[0]]. *)
Example boundary_single_turn (w : World) :
  round 1 4 4 4 (mkPlayer "p1" StrategicClass, mkPlayer "p2" StrategicClass) w
  = Ok ("p1"%string,
        {| goal := 4; min_step := 4; max_step := 4; current := 4;
           players := (mkPlayer "p1" StrategicClass,
                       mkPlayer "p2" StrategicClass);
           turn := 1 |},
        emit [MovesLine "p1" 4; TotalLine 4] w).
Proof.
  rewrite round_eq. unfold play, bind, ret.
  rewrite play_loop_more by (simpl; lia).
  unfold bind at 1. rewrite play_one_turn_eq. cbn -[emit play_loop].
  rewrite play_loop_done by (simpl; lia).
  reflexivity.
Qed.

(** A user who first types an illegal move is asked again; the lines printed
    are the text of the source. *)
Example user_round :
  match round 2 5 2 3 (mkPlayer "amy" UserClass, mkPlayer "bot" StrategicClass)
              (mkWorld [Some 7; Some 2] [] (fun _ => 0) O) with
  | Ok (winner, _, w') => (winner, map render (stdout w'))
  | _ => (EmptyString, [])
  end
  = ("bot"%string,
     ["Input your move between 2 and 3:"; "Invalid move. Try Again!";
      "Input your move between 2 and 3:"; "amy moves 2."; "Total is now 2.";
      "bot moves 3."; "Total is now 5."]%string).
Proof. reflexivity. Qed.

(** Malformed text, the end of the input and the base class's [move] end
    the round with an exception. *)
Example user_malformed_input :
  round 2 5 2 3 (mkPlayer "amy" UserClass, mkPlayer "bot" StrategicClass)
        (mkWorld [None] [] (fun _ => 0) O) = Raise ValueError.
Proof. reflexivity. Qed.

Example user_end_of_input :
  round 2 5 2 3 (mkPlayer "amy" UserClass, mkPlayer "bot" StrategicClass)
        (mkWorld [Some 9] [] (fun _ => 0) O) = Raise EOFError.
Proof. reflexivity. Qed.

Example base_player_cannot_move :
  round 2 5 2 3 (mkPlayer "amy" BaseClass, mkPlayer "bot" StrategicClass)
        (mkWorld [] [] (fun _ => 0) O) = Raise NotImplementedError.
Proof. reflexivity. Qed.

(** A session entered with the goal already reached plays no turn and names
    [players[1]], since [-1 % 2] is 1. *)
Example play_without_turns (w : World) :
  play 0 {| goal := 5; min_step := 1; max_step := 2; current := 5;
            players := (mkPlayer "p1" StrategicClass,
                        mkPlayer "p2" StrategicClass);
            turn := 0 |} w
  = Ok ("p2"%string,
        {| goal := 5; min_step := 1; max_step := 2; current := 5;
           players := (mkPlayer "p1" StrategicClass,
                       mkPlayer "p2" StrategicClass);
           turn := 0 |}, w).
Proof. reflexivity. Qed.

(** * Further properties of the code *)

(** ** The user's move *)

Lemma move_loop_accepts lines mn mx : forall w mv w',
  UserPlayer.move_loop lines mn mx w = Ok (mv, w') ->
  mn <= mv <= mx
  /\ exists rejected,
       lines = map Some rejected ++ Some mv :: stdin w'
       /\ Forall (fun z => ~ mn <= z <= mx) rejected
       /\ stdout w' = stdout w ++ asked_again mn mx rejected
                               ++ [PromptLine mn mx]
       /\ draws w' = draws w /\ drawn w' = drawn w.
Proof.
  induction lines as [|[z|] rest IH]; intros w mv w' H; simpl in H;
    try discriminate.
  destruct (Z.leb_spec mn z) as [H1|H1];
    [destruct (Z.leb_spec z mx) as [H2|H2]|]; simpl in H.
  - injection H as <- <-. split; [lia|].
    exists []. simpl. repeat split. constructor.
  - apply IH in H. destruct H as (Hin & rej & -> & Hrej & Hout & Hd & Hn).
    split; [assumption|]. exists (z :: rej). simpl in *.
    repeat split; try assumption.
    + constructor; [lia | assumption].
    + rewrite Hout, <- !app_assoc. reflexivity.
  - apply IH in H. destruct H as (Hin & rej & -> & Hrej & Hout & Hd & Hn).
    split; [assumption|]. exists (z :: rej). simpl in *.
    repeat split; try assumption.
    + constructor; [lia | assumption].
    + rewrite Hout, <- !app_assoc. reflexivity.
Qed.

Lemma move_loop_ignores_stdin lines mn mx : forall w1 w2,
  stdout w1 = stdout w2 -> draws w1 = draws w2 -> drawn w1 = drawn w2 ->
  UserPlayer.move_loop lines mn mx w1 = UserPlayer.move_loop lines mn mx w2.
Proof.
  induction lines as [|[z|] rest IH]; intros w1 w2 Ho Hd Hn; simpl;
    try reflexivity.
  rewrite Ho, Hd, Hn.
  destruct ((mn <=? z) && (z <=? mx)); [reflexivity|].
  apply IH; reflexivity.
Qed.

Lemma move_loop_rejects mn mx rejected : forall tail w,
  Forall (fun z => ~ mn <= z <= mx) rejected ->
  UserPlayer.move_loop (map Some rejected ++ tail) mn mx w
  = UserPlayer.move_loop tail mn mx (emit (asked_again mn mx rejected) w).
Proof.
  induction rejected as [|z rej IH]; intros tail w Hrej.
  - simpl. unfold asked_again. simpl. now rewrite emit_nil.
  - inversion Hrej as [|? ? Hz Hrest]; subst. simpl.
    assert (E : (mn <=? z) && (z <=? mx) = false).
    { destruct (Z.leb_spec mn z), (Z.leb_spec z mx); simpl; try reflexivity.
      lia. }
    rewrite E, IH by assumption.
    apply move_loop_ignores_stdin; try reflexivity.
    unfold asked_again. simpl. now rewrite <- !app_assoc.
Qed.

(** X1. A move [UserPlayer.move] returns is always inside
    [[min_step, max_step]]: it is the first such answer typed, every answer
    before it was an integer outside the range and cost one prompt and one
    complaint, the lines after it are left to be read, and the random
    source is not touched. *)
Theorem user_move_is_first_legal_answer c mn mx g w mv w' :
  UserPlayer.move c mn mx g w = Ok (mv, w') ->
  mn <= mv <= mx
  /\ exists rejected,
       stdin w = map Some rejected ++ Some mv :: stdin w'
       /\ Forall (fun z => ~ mn <= z <= mx) rejected
       /\ stdout w' = stdout w ++ asked_again mn mx rejected
                               ++ [PromptLine mn mx]
       /\ draws w' = draws w /\ drawn w' = drawn w.
Proof. unfold UserPlayer.move. apply move_loop_accepts. Qed.

Lemma user_move_is_first_legal_answer_witness :
  UserPlayer.move 0 2 3 10 (mkWorld [Some 7; Some 3; None] [] (fun _ => 0) O)
  = Ok (3, mkWorld [None] [PromptLine 2 3; InvalidLine; PromptLine 2 3]
                   (fun _ => 0) O)
  /\ 2 <= 3 <= 3.
Proof.
  assert (E : UserPlayer.move 0 2 3 10
                (mkWorld [Some 7; Some 3; None] [] (fun _ => 0) O)
              = Ok (3, mkWorld [None]
                               [PromptLine 2 3; InvalidLine; PromptLine 2 3]
                               (fun _ => 0) O)) by reflexivity.
  split; [exact E|].
  exact (proj1 (user_move_is_first_legal_answer _ _ _ _ _ _ _ E)).
Defined.

(** X2. What [UserPlayer.move] does is decided by the first line typed that
    is not an integer outside the range: a legal integer is returned, text
    that is no integer raises [ValueError], and running out of lines raises
    [EOFError]. *)
Theorem user_move_by_first_decisive_line c mn mx g w rejected :
  Forall (fun z => ~ mn <= z <= mx) rejected ->
  (forall mv rest,
     stdin w = map Some rejected ++ Some mv :: rest -> mn <= mv <= mx ->
     UserPlayer.move c mn mx g w
     = Ok (mv, {| stdin := rest;
                  stdout := stdout w ++ asked_again mn mx rejected
                                     ++ [PromptLine mn mx];
                  draws := draws w; drawn := drawn w |}))
  /\ (forall rest,
        stdin w = map Some rejected ++ None :: rest ->
        UserPlayer.move c mn mx g w = Raise ValueError)
  /\ (stdin w = map Some rejected ->
        UserPlayer.move c mn mx g w = Raise EOFError).
Proof.
  intros Hrej. unfold UserPlayer.move. repeat split.
  - intros mv rest -> Hin. rewrite move_loop_rejects by assumption. simpl.
    destruct (Z.leb_spec mn mv); [|lia].
    destruct (Z.leb_spec mv mx); [|lia]. simpl.
    now rewrite <- app_assoc.
  - intros rest ->. now rewrite move_loop_rejects.
  - intros E. rewrite E, <- (app_nil_r (map Some rejected)).
    now rewrite move_loop_rejects.
Qed.

Lemma user_move_by_first_decisive_line_witness :
  UserPlayer.move 0 2 3 10 (mkWorld [Some 7; Some 0; None; Some 2] []
                                    (fun _ => 0) O)
  = Raise ValueError.
Proof.
  assert (R : Forall (fun z => ~ 2 <= z <= 3) [7; 0])
    by (repeat constructor; lia).
  exact (proj1 (proj2 (user_move_by_first_decisive_line
                         0 2 3 10
                         (mkWorld [Some 7; Some 0; None; Some 2] []
                                  (fun _ => 0) O) [7; 0] R))
               [Some 2] eq_refl).
Defined.




(** ** The random move *)

(** X4. [RandomPlayer.move] on a non-empty range returns a value of
    [[min_step, max_step]] that depends on neither [current] nor [goal],
    uses up one draw and neither reads nor prints; on an empty range it
    raises [ValueError]. *)
Theorem random_move_in_range c mn mx g w :
  (mn <= mx ->
     exists amount w',
       RandomPlayer.move c mn mx g w = Ok (amount, w')
       /\ mn <= amount <= mx
       /\ (forall c2 g2, RandomPlayer.move c2 mn mx g2 w = Ok (amount, w'))
       /\ drawn w' = S (drawn w) /\ draws w' = draws w
       /\ stdin w' = stdin w /\ stdout w' = stdout w)
  /\ (mx < mn -> RandomPlayer.move c mn mx g w = Raise ValueError).
Proof.
  unfold RandomPlayer.move, randint. split; intros H.
  - destruct (Z.ltb_spec mx mn); [lia|].
    eexists. eexists. split; [reflexivity|].
    pose proof (Z.mod_pos_bound (draws w (drawn w)) (mx - mn + 1) ltac:(lia)).
    simpl. repeat split; lia.
  - destruct (Z.ltb_spec mx mn); [reflexivity | lia].
Qed.

Lemma random_move_in_range_witness :
  2 <= 5
  /\ exists amount w',
       RandomPlayer.move 0 2 5 10 (mkWorld [] [] (fun _ => 7) O)
       = Ok (amount, w') /\ 2 <= amount <= 5.
Proof.
  assert (H : 2 <= 5) by lia.
  split; [exact H|].
  destruct (proj1 (random_move_in_range 0 2 5 10
                     (mkWorld [] [] (fun _ => 7) O)) H)
    as (amount & w' & E & R & _).
  exists amount, w'. split; [exact E | exact R].
Defined.

(** ** Rounds of the players the program builds *)

Lemma legal_move_in_range p c mn mx g w amount w' :
  legal_class p = true ->
  valid_config g mn mx ->
  call_move p c mn mx g w = Ok (amount, w') ->
  mn <= amount <= mx.
Proof.
  unfold legal_class, call_move. intros L V.
  destruct (class p); try discriminate; intros H.
  - unfold RandomPlayer.move, randint in H. destruct V as (Hmn & Hle & Hg).
    destruct (Z.ltb_spec mx mn); [discriminate|].
    injection H as <- _.
    pose proof (Z.mod_pos_bound (draws w (drawn w)) (mx - mn + 1) ltac:(lia)).
    lia.
  - apply move_loop_accepts in H. tauto.
  - destruct (strategic_in_range c mn mx g w V) as (a & E & R).
    rewrite E in H. injection H as <- _. exact R.
Qed.

Lemma play_one_turn_amount g w g' w' :
  play_one_turn g w = Ok (g', w') ->
  exists amount w1,
    call_move (whose_turn g (turn g)) (current g) (min_step g) (max_step g)
              (goal g) w = Ok (amount, w1)
    /\ current g' = current g + amount
    /\ w' = emit [MovesLine (name (whose_turn g (turn g))) amount;
                  TotalLine (current g + amount)] w1.
Proof.
  rewrite play_one_turn_eq.
  destruct (call_move _ _ _ _ _ w) as [[amount w1]| |]; try discriminate.
  intros H. injection H as <- <-. exists amount, w1. repeat split.
Qed.

Lemma ceil_div_least a b n : 0 < b -> a <= n * b -> ceil_div a b <= n.
Proof.
  intros Hb H. unfold ceil_div.
  assert (- n <= (- a) / b) by (apply Z.div_le_lower_bound; nia).
  lia.
Qed.

Lemma turns_legal_bounds g w n g' w' :
  turns g w n g' w' ->
  valid_config (goal g) (min_step g) (max_step g) ->
  legal_class (fst (players g)) = true ->
  legal_class (snd (players g)) = true ->
  current g + Z.of_nat n * min_step g <= current g'
  /\ current g' <= current g + Z.of_nat n * max_step g
  /\ (n <> O -> current g' < goal g + max_step g).
Proof.
  intros H V L0 L1.
  induction H as [g w | g w n g1 w1 g' w' Hn IH Hlt Hstep].
  - split; [|split]; [lia | lia | intros C; now contradiction C].
  - specialize (IH V L0 L1). destruct IH as (Hlo & Hhi & _).
    destruct (turns_frame _ _ _ _ _ Hn) as (Eg & Emn & Emx & Ep & _).
    destruct (play_one_turn_amount _ _ _ _ Hstep)
      as (amount & w2 & Hmv & Hcur & _).
    assert (R : min_step g1 <= amount <= max_step g1).
    { apply (legal_move_in_range (whose_turn g1 (turn g1)) (current g1)
                                 _ _ (goal g1) w1 amount w2).
      - destruct (whose_turn_cases g1 (turn g1)) as [E | E];
          rewrite E, Ep; assumption.
      - rewrite Eg, Emn, Emx. exact V.
      - exact Hmv. }
    rewrite Emn, Emx in R. rewrite Eg in Hlt.
    destruct V as (Hmn & Hle & Hg).
    split; [|split]; [nia | nia | intros _; lia].
Qed.

(** X5. The representation invariants of the class docstring, along a round
    of random, user or strategic players on a valid configuration: after
    any number [n] of turns, [turn] is [n], the configuration and the
    players are the ones the session was built with, and [current] lies
    between [n * min_step] and [n * max_step]; [current] is never negative
    and stays below [goal + max_step], but [current <= goal] is only
    promised before a move, not after the last one. *)
Theorem legal_round_invariants g_goal mn mx p0 p1 w n g w' :
  valid_config g_goal mn mx ->
  legal_class p0 = true ->
  legal_class p1 = true ->
  turns {| goal := g_goal; min_step := mn; max_step := mx;
           current := 0; players := (p0, p1); turn := 0 |} w n g w' ->
  turn g = Z.of_nat n /\ 0 <= turn g
  /\ goal g = g_goal /\ min_step g = mn /\ max_step g = mx
  /\ players g = (p0, p1)
  /\ Z.of_nat n * mn <= current g <= Z.of_nat n * mx
  /\ 0 <= current g < g_goal + mx.
Proof.
  intros V L0 L1 H.
  destruct (turns_frame _ _ _ _ _ H) as (Eg & Emn & Emx & Ep & Et).
  destruct (turns_legal_bounds _ _ _ _ _ H V L0 L1) as (Hlo & Hhi & Hlast).
  simpl in *. destruct V as (Hmn & Hle & Hg).
  repeat split; try assumption; lia.
Qed.

Lemma legal_round_invariants_witness :
  valid_config 7 3 3
  /\ 0 <= current {| goal := 7; min_step := 3; max_step := 3; current := 3;
                     players := (mkPlayer "a" StrategicClass,
                                 mkPlayer "b" RandomClass);
                     turn := 1 |} < 7 + 3.
Proof.
  assert (V : valid_config 7 3 3) by (unfold valid_config; lia).
  split; [exact V|].
  assert (T : turns {| goal := 7; min_step := 3; max_step := 3; current := 0;
                       players := (mkPlayer "a" StrategicClass,
                                   mkPlayer "b" RandomClass);
                       turn := 0 |} (mkWorld [] [] (fun _ => 0) O) 1
                    {| goal := 7; min_step := 3; max_step := 3; current := 3;
                       players := (mkPlayer "a" StrategicClass,
                                   mkPlayer "b" RandomClass);
                       turn := 1 |}
                    (mkWorld [] [MovesLine "a" 3; TotalLine 3]
                             (fun _ => 0) O)).
  { eapply turns_more; [apply turns_none | simpl; lia | reflexivity]. }
  exact (proj2 (proj2 (proj2 (proj2 (proj2 (proj2 (proj2
           (legal_round_invariants 7 3 3 (mkPlayer "a" StrategicClass)
              (mkPlayer "b" RandomClass) _ _ _ _
              V eq_refl eq_refl T)))))))).
Defined.

Lemma turns_last g w n g' w' :
  turns g w n g' w' ->
  (n = O /\ g' = g /\ w' = w)
  \/ exists k last w_last,
       n = S k /\ turns g w k last w_last
       /\ current last < goal last
       /\ play_one_turn last w_last = Ok (g', w').
Proof.
  intros H. destruct H as [g w | g w k last w_last g' w' Hk Hlt Hstep].
  - left. repeat split.
  - right. exists k, last, w_last. repeat split; assumption.
Qed.

Lemma round_turns fuel g_goal mn mx ps w winner g' w' :
  round fuel g_goal mn mx ps w = Ok (winner, g', w') ->
  goal g' <= current g'
  /\ winner = name (whose_turn g' (turn g' - 1))
  /\ exists n,
       turns {| goal := g_goal; min_step := mn; max_step := mx;
                current := 0; players := ps; turn := 0 |} w n g' w'.
Proof.
  intros H. rewrite round_eq in H.
  apply play_inv in H. destruct H as (Hloop & Hw).
  apply play_loop_sound, loop_run_turns in Hloop.
  destruct Hloop as (Hge & n & Hn). eauto.
Qed.

(** X6. A round of random, user or strategic players on a valid
    configuration that returns ends with [goal <= current < goal + max_step]
    (an overshoot is smaller than [max_step]) after at least
    [ceil(goal / max_step)] and at most [ceil(goal / min_step)] turns. *)
Theorem legal_round_final fuel g_goal mn mx p0 p1 w winner g' w' :
  valid_config g_goal mn mx ->
  legal_class p0 = true ->
  legal_class p1 = true ->
  round fuel g_goal mn mx (p0, p1) w = Ok (winner, g', w') ->
  g_goal <= current g' < g_goal + mx
  /\ ceil_div g_goal mx <= turn g' <= ceil_div g_goal mn.
Proof.
  intros V L0 L1 H.
  destruct (round_turns _ _ _ _ _ _ _ _ _ H) as (Hge & _ & n & Hn).
  destruct (turns_frame _ _ _ _ _ Hn) as (Eg & _ & _ & _ & Et).
  destruct (turns_legal_bounds _ _ _ _ _ Hn V L0 L1) as (Hlo & Hhi & Hlast).
  simpl in *. rewrite Eg in Hge. pose proof V as (Hmn & Hle & Hg).
  destruct (turns_last _ _ _ _ _ Hn)
    as [(En & _) | (k & last & w_last & En & Hk & Hlt & _)].
  - rewrite En in *. simpl in *. lia.
  - destruct (turns_frame _ _ _ _ _ Hk) as (Eg' & _ & _ & _ & _).
    destruct (turns_legal_bounds _ _ _ _ _ Hk V L0 L1) as (Hlo' & _ & _).
    simpl in *. rewrite Eg' in Hlt.
    pose proof (ceil_div_covers g_goal mn Hmn) as Hc.
    split; [split; [assumption | apply Hlast; lia]|].
    rewrite Et. split; [apply ceil_div_least; lia | nia].
Qed.

Lemma legal_round_final_witness :
  valid_config 5 2 3
  /\ exists winner g' w',
       round 4 5 2 3 (mkPlayer "amy" UserClass, mkPlayer "bot" RandomClass)
             (mkWorld [Some 7; Some 2] [] (fun _ => 1) O)
       = Ok (winner, g', w')
       /\ 5 <= current g' < 5 + 3.
Proof.
  assert (V : valid_config 5 2 3) by (unfold valid_config; lia).
  split; [exact V|].
  assert (E : round 4 5 2 3
                (mkPlayer "amy" UserClass, mkPlayer "bot" RandomClass)
                (mkWorld [Some 7; Some 2] [] (fun _ => 1) O)
              = Ok ("bot"%string,
                    {| goal := 5; min_step := 2; max_step := 3; current := 5;
                       players := (mkPlayer "amy" UserClass,
                                   mkPlayer "bot" RandomClass);
                       turn := 2 |},
                    mkWorld [] [PromptLine 2 3; InvalidLine; PromptLine 2 3;
                                MovesLine "amy" 2; TotalLine 2;
                                MovesLine "bot" 3; TotalLine 5]
                            (fun _ => 1) 1%nat)) by reflexivity.
  do 3 eexists. split; [exact E|].
  exact (proj1 (legal_round_final 4 5 2 3 (mkPlayer "amy" UserClass)
                  (mkPlayer "bot" RandomClass) _ _ _ _
                  V eq_refl eq_refl E)).
Defined.

(** ** Two strategic players *)

Lemma ceil_div_step a b : 0 < b -> ceil_div (a - b) b = ceil_div a b - 1.
Proof.
  intros Hb. unfold ceil_div.
  replace (- (a - b)) with (- a + 1 * b) by lia.
  rewrite Z.div_add by lia. lia.
Qed.

Lemma ceil_div_one a b : 0 < a <= b -> ceil_div a b = 1.
Proof.
  intros H. unfold ceil_div.
  rewrite <- (Z.div_unique (- a) b (-1) (b - a)); lia.
Qed.

Lemma strategic_advance_step rem mn mx :
  0 < mx ->
  strategic_advance (rem - mx) mn mx + mx = strategic_advance rem mn mx.
Proof.
  intros Hmx. unfold strategic_advance.
  assert (E : (rem - mx) mod mx = rem mod mx).
  { replace (rem - mx) with (rem + (-1) * mx) by lia.
    apply Z.mod_add. lia. }
  rewrite E. destruct ((rem mod mx =? 0) || (mn <=? rem mod mx)); lia.
Qed.

Lemma strategic_advance_short rem mn mx :
  0 < mn -> 0 < rem < mx ->
  strategic_advance rem mn mx = if rem <? mn then mn else rem.
Proof.
  intros Hmn H. unfold strategic_advance.
  rewrite Z.mod_small by lia.
  destruct (Z.eqb_spec rem 0); [lia|]. simpl.
  destruct (Z.leb_spec mn rem), (Z.ltb_spec rem mn); lia.
Qed.

Lemma strategic_loop_closed n : forall g w,
  class (fst (players g)) = StrategicClass ->
  class (snd (players g)) = StrategicClass ->
  valid_config (goal g) (min_step g) (max_step g) ->
  0 < goal g - current g <= Z.of_nat n * max_step g ->
  exists g' w',
    play_loop n g w = Ok (g', w')
    /\ current g'
       = current g
         + strategic_advance (goal g - current g) (min_step g) (max_step g)
    /\ turn g' = turn g + ceil_div (goal g - current g) (max_step g)
    /\ players g' = players g.
Proof.
  induction n as [|n IH]; intros g w S0 S1 V Hrem; [lia|].
  pose proof V as (Hmn & Hle & Hg).
  assert (Sw : class (whose_turn g (turn g)) = StrategicClass)
    by (destruct (whose_turn_cases g (turn g)) as [-> | ->]; assumption).
  rewrite play_loop_more by lia. unfold bind.
  rewrite play_one_turn_eq. unfold call_move. rewrite Sw.
  destruct (Z_le_gt_dec (max_step g) (goal g - current g)) as [Hbig|Hsmall].
  - rewrite strategic_take_max by assumption.
    destruct (Z.eq_dec (goal g - current g) (max_step g)) as [Heq|Hne].
    + rewrite play_loop_done by (simpl; lia).
      do 2 eexists. split; [reflexivity|]. simpl.
      rewrite Heq, ceil_div_one by lia.
      unfold strategic_advance. rewrite Z.mod_same by lia. simpl.
      repeat split.
    + match goal with |- exists _ _, play_loop n ?g1 ?w1 = _ /\ _ =>
        assert (R : 0 < goal g1 - current g1 <= Z.of_nat n * max_step g1)
          by (simpl; lia);
        destruct (IH g1 w1 S0 S1 V R) as (g' & w' & Hrun & Hc & Ht & Hp)
      end.
      exists g', w'. split; [exact Hrun|]. simpl in *.
      replace (goal g - (current g + max_step g))
        with (goal g - current g - max_step g) in * by lia.
      rewrite ceil_div_step in Ht by lia.
      rewrite <- (strategic_advance_step (goal g - current g)) by lia.
      repeat split; try assumption; lia.
  - rewrite ceil_div_one, strategic_advance_short by lia.
    destruct (Z.ltb_spec (goal g - current g) (min_step g)) as [Hlow|Hmid].
    + rewrite strategic_take_min by lia.
      rewrite play_loop_done by (simpl; lia).
      do 2 eexists. split; [reflexivity|]. simpl. repeat split.
    + rewrite strategic_take_mod, py_mod_small by lia.
      rewrite play_loop_done by (simpl; lia).
      do 2 eexists. split; [reflexivity|]. simpl. repeat split.
Qed.

Lemma strategic_round_closed g_goal mn mx p0 p1 w :
  valid_config g_goal mn mx ->
  class p0 = StrategicClass ->
  class p1 = StrategicClass ->
  exists g' w',
    play_loop (Z.to_nat (ceil_div g_goal mx))
              {| goal := g_goal; min_step := mn; max_step := mx;
                 current := 0; players := (p0, p1); turn := 0 |} w
    = Ok (g', w')
    /\ current g' = strategic_advance g_goal mn mx
    /\ turn g' = ceil_div g_goal mx
    /\ players g' = (p0, p1).
Proof.
  intros V S0 S1. pose proof V as (Hmn & Hle & Hg).
  pose proof (ceil_div_covers g_goal mx ltac:(lia)) as Hc.
  pose proof (ceil_div_nonneg g_goal mx ltac:(lia) ltac:(lia)) as Hn.
  match goal with |- exists _ _, play_loop ?n ?g0 w = _ /\ _ =>
    assert (R : 0 < goal g0 - current g0 <= Z.of_nat n * max_step g0)
      by (simpl; rewrite Z2Nat.id by assumption; lia);
    destruct (strategic_loop_closed n g0 w S0 S1 V R)
      as (g' & w' & Hrun & Hcur & Ht & Hp)
  end.
  exists g', w'. simpl in *. rewrite Z.sub_0_r in *.
  repeat split; assumption.
Qed.

(** X7. Two strategic players on a valid configuration finish the round in
    exactly [ceil(goal / max_step)] turns, and the winner is [players[0]] when
    that number is odd and [players[1]] when it is even, whatever
    [min_step] is. *)
Theorem strategic_duel_winner g_goal mn mx p0 p1 w spare :
  valid_config g_goal mn mx ->
  class p0 = StrategicClass ->
  class p1 = StrategicClass ->
  exists g' w',
    round (Z.to_nat (ceil_div g_goal mx) + spare) g_goal mn mx (p0, p1) w
    = Ok (name (if Z.odd (ceil_div g_goal mx) then p0 else p1), g', w')
    /\ turn g' = ceil_div g_goal mx.
Proof.
  intros V S0 S1.
  destruct (strategic_round_closed g_goal mn mx p0 p1 w V S0 S1)
    as (g' & w' & Hrun & _ & Ht & Hp).
  exists g', w'. split; [|assumption].
  rewrite round_eq. unfold play, bind, ret.
  rewrite (play_loop_mono _ _ _ _ _ Hrun) by lia.
  unfold whose_turn. rewrite mod2_even, Hp, Ht.
  rewrite Z.sub_1_r, Z.even_pred.
  destruct (Z.odd (ceil_div g_goal mx)); reflexivity.
Qed.

Lemma strategic_duel_winner_witness :
  valid_config 11 2 4
  /\ exists g' w',
       round (Z.to_nat (ceil_div 11 4) + 0) 11 2 4
             (mkPlayer "a" StrategicClass, mkPlayer "b" StrategicClass)
             (mkWorld [] [] (fun _ => 0) O)
       = Ok ("a"%string, g', w')
       /\ turn g' = 3.
Proof.
  assert (V : valid_config 11 2 4) by (unfold valid_config; lia).
  split; [exact V|].
  exact (strategic_duel_winner 11 2 4 (mkPlayer "a" StrategicClass)
           (mkPlayer "b" StrategicClass) (mkWorld [] [] (fun _ => 0) O) O
           V eq_refl eq_refl).
Defined.

(** X8. Whenever a round of two strategic players on a valid configuration
    returns, its final count is [goal] exactly when [goal mod max_step] is 0
    or at least [min_step]; otherwise the last stretch is shorter than the
    smallest move and the count ends [min_step - goal mod max_step] above
    the goal. *)
Theorem strategic_duel_total fuel g_goal mn mx p0 p1 w winner g' w' :
  valid_config g_goal mn mx ->
  class p0 = StrategicClass ->
  class p1 = StrategicClass ->
  round fuel g_goal mn mx (p0, p1) w = Ok (winner, g', w') ->
  (g_goal mod mx = 0 \/ mn <= g_goal mod mx -> current g' = g_goal)
  /\ (0 < g_goal mod mx < mn ->
      current g' = g_goal + (mn - g_goal mod mx)).
Proof.
  intros V S0 S1 H. rewrite round_eq in H.
  apply play_inv in H. destruct H as (Hloop & _).
  destruct (strategic_round_closed g_goal mn mx p0 p1 w V S0 S1)
    as (g2 & w2 & Hrun & Hcur & _).
  pose proof (play_loop_mono _ _ _ _
                (Nat.max fuel (Z.to_nat (ceil_div g_goal mx)))
                Hloop (Nat.le_max_l _ _)) as E1.
  pose proof (play_loop_mono _ _ _ _
                (Nat.max fuel (Z.to_nat (ceil_div g_goal mx)))
                Hrun (Nat.le_max_r _ _)) as E2.
  rewrite E1 in E2. injection E2 as <- <-.
  rewrite Hcur. unfold strategic_advance.
  destruct (Z.eqb_spec (g_goal mod mx) 0), (Z.leb_spec mn (g_goal mod mx));
    simpl; split; intros; lia.
Qed.

Lemma strategic_duel_total_witness :
  valid_config 7 3 5
  /\ 0 < 7 mod 5 < 3
  /\ exists winner g' w',
       round 4 7 3 5 (mkPlayer "a" StrategicClass, mkPlayer "b" StrategicClass)
             (mkWorld [] [] (fun _ => 0) O) = Ok (winner, g', w')
       /\ current g' = 7 + (3 - 7 mod 5).
Proof.
  assert (V : valid_config 7 3 5) by (unfold valid_config; lia).
  assert (B : 0 < 7 mod 5 < 3) by (cbv; split; reflexivity).
  split; [exact V|]. split; [exact B|].
  assert (E : round 4 7 3 5
                (mkPlayer "a" StrategicClass, mkPlayer "b" StrategicClass)
                (mkWorld [] [] (fun _ => 0) O)
              = Ok ("b"%string,
                    {| goal := 7; min_step := 3; max_step := 5; current := 8;
                       players := (mkPlayer "a" StrategicClass,
                                   mkPlayer "b" StrategicClass);
                       turn := 2 |},
                    mkWorld [] [MovesLine "a" 5; TotalLine 5;
                                MovesLine "b" 3; TotalLine 8]
                            (fun _ => 0) O)) by reflexivity.
  do 3 eexists. split; [exact E|].
  exact (proj2 (strategic_duel_total 4 7 3 5 (mkPlayer "a" StrategicClass)
                  (mkPlayer "b" StrategicClass) _ _ _ _
                  V eq_refl eq_refl E) B).
Defined.

(** ** What a round prints *)

Lemma totals_app a b : totals (a ++ b) = totals a ++ totals b.
Proof. unfold totals. apply flat_map_app. Qed.

Lemma amounts_app a b : amounts (a ++ b) = amounts a ++ amounts b.
Proof. unfold amounts. apply flat_map_app. Qed.

Lemma asked_again_silent mn mx rejected :
  totals (asked_again mn mx rejected) = []
  /\ amounts (asked_again mn mx rejected) = [].
Proof.
  induction rejected as [|z rej (IH1 & IH2)]; [split; reflexivity|].
  split; simpl; assumption.
Qed.

Lemma call_move_prints p c mn mx g w amount w1 :
  call_move p c mn mx g w = Ok (amount, w1) ->
  exists pr, stdout w1 = stdout w ++ pr /\ totals pr = [] /\ amounts pr = [].
Proof.
  unfold call_move. destruct (class p); intros H.
  - discriminate.
  - unfold RandomPlayer.move, randint in H.
    destruct (mx <? mn); [discriminate|]. injection H as _ <-.
    exists []. simpl. now rewrite app_nil_r.
  - apply move_loop_accepts in H.
    destruct H as (_ & rej & _ & _ & Hout & _).
    exists (asked_again mn mx rej ++ [PromptLine mn mx]).
    split; [assumption|].
    rewrite totals_app, amounts_app.
    destruct (asked_again_silent mn mx rej) as (-> & ->). split; reflexivity.
  - exists []. rewrite app_nil_r.
    unfold StrategicPlayer.move, py_mod, ret, raise in H.
    destruct (g - c >=? mx);
      [|destruct (g - c <? mn); [|destruct (mx + 1 =? 0)]];
      try discriminate; injection H as _ <-; repeat split.
  - exists []. rewrite app_nil_r. unfold ret in H.
    injection H as _ <-. repeat split.
Qed.

Lemma running_snoc l : forall s a,
  running s (l ++ [a]) = running s l ++ [fold_left Z.add l s + a].
Proof.
  induction l as [|b l IH]; intros s a; simpl; [reflexivity|].
  now rewrite IH.
Qed.

Lemma running_last_from l : forall s d,
  last (running s l) d
  = match l with [] => d | _ :: _ => fold_left Z.add l s end.
Proof.
  induction l as [|b l IH]; intros s d; [reflexivity|].
  simpl running. specialize (IH (s + b) d).
  destruct l as [|z l]; [reflexivity|].
  simpl fold_left in *. rewrite <- IH. reflexivity.
Qed.

Lemma running_last l s : last (running s l) s = fold_left Z.add l s.
Proof. rewrite running_last_from. destruct l; reflexivity. Qed.

Lemma running_length l : forall s, List.length (running s l) = List.length l.
Proof.
  induction l as [|a l IH]; intros s; simpl; [reflexivity | now rewrite IH].
Qed.

Lemma turns_output g w n g' w' :
  turns g w n g' w' ->
  exists out,
    stdout w' = stdout w ++ out
    /\ totals out = running (current g) (amounts out)
    /\ List.length (amounts out) = n
    /\ fold_left Z.add (amounts out) (current g) = current g'.
Proof.
  induction 1 as [g w | g w n g1 w1 g' w' _ (out & Ho & Ht & Hl & Hs) Hlt Hstep].
  - exists []. rewrite app_nil_r. repeat split.
  - destruct (play_one_turn_amount _ _ _ _ Hstep)
      as (amount & w2 & Hmv & Hcur & ->).
    destruct (call_move_prints _ _ _ _ _ _ _ _ Hmv) as (pr & Hpr & Tp & Ap).
    exists (out ++ pr ++ [MovesLine (name (whose_turn g1 (turn g1))) amount;
                          TotalLine (current g1 + amount)]).
    rewrite !totals_app, !amounts_app, Tp, Ap. simpl.
    rewrite running_snoc, Ht, Hs, fold_left_app, Hs, Hcur. simpl.
    rewrite Hpr, Ho, <- !app_assoc, length_app, Hl. simpl.
    repeat split. lia.
Qed.

(** X9. The lines a returning round has added to the output carry one
    "moves" and one "total" line per turn, the totals printed are the running
    sums of the amounts printed, starting from 0, and the last total printed
    is the final count; this holds for any players, legal moves or not. *)
Theorem round_output_adds_up fuel g_goal mn mx ps w winner g' w' :
  round fuel g_goal mn mx ps w = Ok (winner, g', w') ->
  exists out,
    stdout w' = stdout w ++ out
    /\ totals out = running 0 (amounts out)
    /\ Z.of_nat (List.length (amounts out)) = turn g'
    /\ List.length (totals out) = List.length (amounts out)
    /\ last (totals out) 0 = current g'.
Proof.
  intros H.
  destruct (round_turns _ _ _ _ _ _ _ _ _ H) as (_ & _ & n & Hn).
  destruct (turns_frame _ _ _ _ _ Hn) as (_ & _ & _ & _ & Et).
  destruct (turns_output _ _ _ _ _ Hn) as (out & Ho & Ht & Hl & Hs).
  simpl in *. exists out. rewrite Ht, running_last, running_length, Hl.
  repeat split; try assumption; lia.
Qed.

Lemma round_output_adds_up_witness :
  exists out,
    [PromptLine 2 3; InvalidLine; PromptLine 2 3;
     MovesLine "amy" 2; TotalLine 2; MovesLine "bot" 3; TotalLine 5]
    = [] ++ out
    /\ totals out = running 0 (amounts out)
    /\ last (totals out) 0 = 5.
Proof.
  assert (E : round 4 5 2 3
                (mkPlayer "amy" UserClass, mkPlayer "bot" RandomClass)
                (mkWorld [Some 7; Some 2] [] (fun _ => 1) O)
              = Ok ("bot"%string,
                    {| goal := 5; min_step := 2; max_step := 3; current := 5;
                       players := (mkPlayer "amy" UserClass,
                                   mkPlayer "bot" RandomClass);
                       turn := 2 |},
                    mkWorld [] [PromptLine 2 3; InvalidLine; PromptLine 2 3;
                                MovesLine "amy" 2; TotalLine 2;
                                MovesLine "bot" 3; TotalLine 5]
                            (fun _ => 1) 1%nat)) by reflexivity.
  destruct (round_output_adds_up _ _ _ _ _ _ _ _ _ E)
    as (out & Ho & Ht & _ & _ & Hlast).
  exists out. repeat split; assumption.
Defined.

(** ** The abstract player *)

Lemma base_turn_raises g w :
  class (whose_turn g (turn g)) = BaseClass ->
  play_one_turn g w = Raise NotImplementedError.
Proof.
  intros B. rewrite play_one_turn_eq. unfold call_move. now rewrite B.
Qed.

Lemma turns_head g w n g' w' :
  turns g w n g' w' ->
  forall m, n = S m ->
  exists g1 w1,
    current g < goal g
    /\ play_one_turn g w = Ok (g1, w1)
    /\ turns g1 w1 m g' w'.
Proof.
  induction 1 as [g w | g w k last w_last g' w' Hk IH Hlt Hstep];
    intros m E; [discriminate|].
  injection E as ->.
  destruct m as [|j].
  - destruct (turns_last _ _ _ _ _ Hk)
      as [(_ & -> & ->) | (? & ? & ? & C & _)]; [|discriminate].
    exists g', w'. repeat split; try assumption. apply turns_none.
  - destruct (IH j eq_refl) as (g1 & w1 & Hlt1 & Hstep1 & Hrest).
    exists g1, w1. repeat split; try assumption.
    eapply turns_more; eassumption.
Qed.

Lemma turns_second_is_base g w n g' w' p0 p1 :
  turns g w n g' w' ->
  players g = (p0, p1) -> turn g = 0 -> class p1 = BaseClass ->
  (n <= 1)%nat.
Proof.
  intros H Hp Ht B.
  destruct n as [|[|n]]; try lia. exfalso.
  destruct (turns_head _ _ _ _ _ H _ eq_refl) as (g1 & w1 & _ & Hs1 & H1).
  destruct (turns_head _ _ _ _ _ H1 _ eq_refl) as (g2 & w2 & _ & Hs2 & _).
  destruct (play_one_turn_keeps _ _ _ _ Hs1) as (_ & _ & _ & Ep & Et).
  rewrite base_turn_raises in Hs2; [discriminate|].
  unfold whose_turn. rewrite Et, Ht, Ep, Hp. exact B.
Qed.

(** X10. The base class [Player] cannot play: on a configuration with a
    positive goal, a round whose [players[0]] is a plain [Player] raises
    [NotImplementedError] on its first turn, and a round whose [players[1]]
    is one can only return if the first move alone reached the goal, with
    [players[0]] as the winner. *)
Theorem base_player_round g_goal mn mx p0 p1 w :
  0 < g_goal ->
  (class p0 = BaseClass ->
     forall fuel,
       round (S fuel) g_goal mn mx (p0, p1) w = Raise NotImplementedError)
  /\ (class p1 = BaseClass ->
      forall fuel winner g' w',
        round fuel g_goal mn mx (p0, p1) w = Ok (winner, g', w') ->
        turn g' = 1 /\ winner = name p0).
Proof.
  intros Hg. split; intros B.
  - intros fuel. rewrite round_eq. unfold play, bind.
    rewrite play_loop_more by (simpl; lia). unfold bind.
    now rewrite base_turn_raises.
  - intros fuel winner g' w' H.
    destruct (round_turns _ _ _ _ _ _ _ _ _ H) as (Hge & Hw & n & Hn).
    destruct (turns_frame _ _ _ _ _ Hn) as (Eg & _ & _ & Ep & Et).
    pose proof (turns_second_is_base _ _ _ _ _ _ _ Hn eq_refl eq_refl B) as Hle.
    simpl in *.
    destruct n as [|[|n]]; try lia.
    + destruct (turns_last _ _ _ _ _ Hn)
        as [(_ & -> & _) | (? & ? & ? & C & _)]; [|discriminate].
      simpl in Hge. lia.
    + split; [lia|]. rewrite Hw. unfold whose_turn. now rewrite Et, Ep.
Qed.

Lemma base_player_round_witness :
  0 < 5
  /\ round 3 5 2 3 (mkPlayer "amy" BaseClass, mkPlayer "bot" StrategicClass)
            (mkWorld [] [] (fun _ => 0) O) = Raise NotImplementedError.
Proof.
  assert (H : 0 < 5) by lia.
  split; [exact H|].
  exact (proj1 (base_player_round 5 2 3 (mkPlayer "amy" BaseClass)
                  (mkPlayer "bot" StrategicClass)
                  (mkWorld [] [] (fun _ => 0) O) H) eq_refl 2%nat).
Defined.

(** ** Building the players *)

(** X11. A player [make_player] returns carries the name typed first, is a
    random, user or strategic player according to the second line typed,
    compared without regard to ASCII case, and cost exactly those two lines
    and the two prompts; the random source is not touched. *)
Theorem make_player_builds generic c p c' :
  make_player generic c = Returns (p, c') ->
  exists answer,
    typed c = name p :: answer :: typed c'
    /\ legal_class p = true
    /\ ((lower answer = "random"%string /\ class p = RandomClass)
        \/ (lower answer = "user"%string /\ class p = UserClass)
        \/ (lower answer = "strategic"%string /\ class p = StrategicClass))
    /\ shown c' = shown c ++ [NamePrompt generic; TypePrompt generic]
    /\ rolls c' = rolls c /\ rolled c' = rolled c.
Proof.
  unfold make_player, cbind, input.
  destruct (typed c) as [|nm [|answer rest]]; simpl; try discriminate.
  destruct (String.eqb_spec (lower answer) "random") as [E1|_];
    [|destruct (String.eqb_spec (lower answer) "user") as [E2|_];
      [|destruct (String.eqb_spec (lower answer) "strategic") as [E3|_]]];
    simpl; intros H; try discriminate; injection H as <- <-;
    exists answer; simpl; rewrite <- app_assoc; repeat split; auto.
Qed.

Lemma make_player_builds_witness :
  exists answer,
    ["amy"; "StraTegic"; "bot"]%string
    = "amy"%string :: answer :: ["bot"%string]
    /\ legal_class (mkPlayer "amy" StrategicClass) = true.
Proof.
  assert (E : make_player "p1"
                (mkConsole ["amy"; "StraTegic"; "bot"]%string [] (fun _ => 0) O)
              = Returns (mkPlayer "amy" StrategicClass,
                         mkConsole ["bot"%string]
                                   [NamePrompt "p1"; TypePrompt "p1"]
                                   (fun _ => 0) O)) by reflexivity.
  destruct (make_player_builds _ _ _ _ E) as (answer & Ht & Hl & _).
  exists answer. split; [exact Ht | exact Hl].
Defined.

(** X12. [make_player] never falls back on a random player: when the
    second line typed is none of the three type names, the call
    [RandomPlayer()] lacks the name the constructor requires and the program
    stops with [TypeError]; with fewer than two lines left it stops with
    [EOFError]. *)
Theorem make_player_unknown_type generic c :
  (forall nm answer rest,
     typed c = nm :: answer :: rest ->
     lower answer <> "random"%string ->
     lower answer <> "user"%string ->
     lower answer <> "strategic"%string ->
     make_player generic c = Crashes TypeError)
  /\ ((List.length (typed c) < 2)%nat ->
      make_player generic c = Crashes (GameError EOFError)).
Proof.
  unfold make_player, cbind, input. split.
  - intros nm answer rest -> N1 N2 N3. simpl.
    destruct (String.eqb_spec (lower answer) "random"); [contradiction|].
    destruct (String.eqb_spec (lower answer) "user"); [contradiction|].
    destruct (String.eqb_spec (lower answer) "strategic"); [contradiction|].
    reflexivity.
  - destruct (typed c) as [|nm [|answer rest]]; simpl; intros H;
      try reflexivity. lia.
Qed.

Lemma make_player_unknown_type_witness :
  make_player "p1" (mkConsole ["amy"; "robot"; "bot"]%string [] (fun _ => 0) O)
  = Crashes TypeError.
Proof.
  apply (proj1 (make_player_unknown_type "p1"
                  (mkConsole ["amy"; "robot"; "bot"]%string []
                             (fun _ => 0) O))
               "amy"%string "robot"%string ["bot"%string] eq_refl);
    discriminate.
Defined.

(** ** The program *)

Section Program.

Variable py_int : string -> option Z.

Lemma int_input_reads prompt c line rest z :
  typed c = line :: rest -> py_int line = Some z ->
  int_input py_int prompt c
  = Returns (z, {| typed := rest; shown := shown c ++ [prompt];
                   rolls := rolls c; rolled := rolled c |}).
Proof.
  intros Ht Hz. unfold int_input, cbind, input. rewrite Ht, Hz. reflexivity.
Qed.

Lemma make_player_strategic generic c nm answer rest :
  typed c = nm :: answer :: rest ->
  lower answer = "strategic"%string ->
  make_player generic c
  = Returns (mkPlayer nm StrategicClass,
             {| typed := rest;
                shown := shown c ++ [NamePrompt generic; TypePrompt generic];
                rolls := rolls c; rolled := rolled c |}).
Proof.
  intros Ht Hl. unfold make_player, cbind, input. rewrite Ht. simpl.
  rewrite Hl. simpl. now rewrite <- app_assoc.
Qed.

Lemma from_world_emit c out :
  from_world c (emit out (to_world py_int c))
  = {| typed := typed c; shown := shown c ++ map GameLine out;
       rolls := rolls c; rolled := rolled c |}.
Proof.
  unfold from_world, to_world, emit. simpl.
  now rewrite length_map, Nat.sub_diag.
Qed.

(** A round of two strategic players is the same wherever it is played. *)
Lemma strategic_round_anywhere g_goal mn mx p0 p1 :
  valid_config g_goal mn mx ->
  class p0 = StrategicClass ->
  class p1 = StrategicClass ->
  exists g' out,
    forall spare w,
      round (Z.to_nat (ceil_div g_goal mx) + spare) g_goal mn mx (p0, p1) w
      = Ok (name (if Z.odd (ceil_div g_goal mx) then p0 else p1), g',
            emit out w).
Proof.
  intros V S0 S1.
  destruct (strategic_round_closed g_goal mn mx p0 p1
              (mkWorld [] [] (fun _ => 0) O) V S0 S1)
    as (g' & w' & Hrun & _ & Ht & Hp).
  assert (D0 : deterministic p0 = true) by (unfold deterministic; now rewrite S0).
  assert (D1 : deterministic p1 = true) by (unfold deterministic; now rewrite S1).
  pose proof (fun d0 d1 => deterministic_loop _ _ _ _ _ d0 d1 Hrun) as K.
  destruct (K D0 D1) as (out & _ & Hany). clear K.
  exists g', out. intros spare w.
  rewrite round_eq. unfold play, bind, ret.
  rewrite (play_loop_mono _ _ _ _ _ (Hany w)) by lia.
  unfold whose_turn. rewrite mod2_even, Hp, Ht, Z.sub_1_r, Z.even_pred.
  destruct (Z.odd (ceil_div g_goal mx)); reflexivity.
Qed.

Lemma main_loop_round rounds fuel g_goal mn mx p1 p2 win g' out c again rest :
  (forall w, round fuel g_goal mn mx (p1, p2) w = Ok (win, g', emit out w)) ->
  typed c = again :: rest ->
  main_loop py_int (S rounds) fuel g_goal mn mx p1 p2 c
  = if negb (again =? "y")%string
    then Returns (tt,
           {| typed := rest;
              shown := shown c
                       ++ (map GameLine out
                           ++ [WinnerLine win; PlayerLine p1; PlayerLine p2;
                               AgainPrompt])
                       ++ [ThanksLine];
              rolls := rolls c; rolled := rolled c |})
    else main_loop py_int rounds fuel g_goal mn mx p1 p2
           {| typed := rest;
              shown := shown c
                       ++ (map GameLine out
                           ++ [WinnerLine win; PlayerLine p1; PlayerLine p2;
                               AgainPrompt]);
              rolls := rolls c; rolled := rolled c |}.
Proof.
  intros Hround Ht. cbn [main_loop]. unfold cbind at 1, in_game.
  rewrite Hround, from_world_emit.
  unfold cbind, show, input. simpl. rewrite Ht.
  destruct (negb (again =? "y")%string); simpl;
    rewrite <- ?app_assoc; simpl; reflexivity.
Qed.

Lemma main_loop_replays fuel g_goal mn mx p1 p2 win g' out stop rest :
  (forall w, round fuel g_goal mn mx (p1, p2) w = Ok (win, g', emit out w)) ->
  stop <> "y"%string ->
  forall k spare c,
    typed c = repeat "y"%string k ++ stop :: rest ->
    main_loop py_int (S k + spare) fuel g_goal mn mx p1 p2 c
    = Returns (tt,
        {| typed := rest;
           shown := shown c
                    ++ List.concat (repeat (map GameLine out
                                       ++ [WinnerLine win; PlayerLine p1;
                                           PlayerLine p2; AgainPrompt])
                                      (S k))
                    ++ [ThanksLine];
           rolls := rolls c; rolled := rolled c |}).
Proof.
  intros Hround Hstop.
  induction k as [|k IH]; intros spare c Ht.
  - change (1 + spare)%nat with (S spare).
    rewrite (main_loop_round _ _ _ _ _ _ _ _ _ _ _ _ _ Hround Ht).
    destruct (String.eqb_spec stop "y"); [contradiction|].
    simpl. rewrite app_nil_r. reflexivity.
  - change (S (S k) + spare)%nat with (S (S k + spare)).
    rewrite (main_loop_round _ _ _ _ _ _ _ _ _ _ _ _ _ Hround Ht).
    simpl negb. cbv iota.
    rewrite IH by reflexivity.
    cbn [shown typed rolls rolled repeat List.concat].
    rewrite <- !app_assoc. reflexivity.
Qed.

(** X13. [main] with two strategic players on a valid configuration: after
    the three numbers and the two players, every line ["y"] replays the
    round and the first other line ends the program.  Each of the rounds
    prints the same lines and announces the same winner, [p1] when
    [ceil(goal / max_step)] is odd and [p2] otherwise; the lines after the
    closing answer are left unread and the random source is not used. *)
Theorem main_replays_strategic_round
        sg smn smx n1 t1 n2 t2 k stop rest g_goal mn mx c more spare :
  typed c = sg :: smn :: smx :: n1 :: t1 :: n2 :: t2
               :: repeat "y"%string k ++ stop :: rest ->
  py_int sg = Some g_goal -> py_int smn = Some mn -> py_int smx = Some mx ->
  valid_config g_goal mn mx ->
  lower t1 = "strategic"%string -> lower t2 = "strategic"%string ->
  stop <> "y"%string ->
  exists out,
    main py_int (S k + more) (Z.to_nat (ceil_div g_goal mx) + spare) c
    = Returns (tt,
        {| typed := rest;
           shown := shown c
                    ++ [GoalPrompt; MinPrompt; MaxPrompt;
                        NamePrompt "p1"; TypePrompt "p1";
                        NamePrompt "p2"; TypePrompt "p2"]
                    ++ List.concat (repeat
                         (map GameLine out
                          ++ [WinnerLine (if Z.odd (ceil_div g_goal mx)
                                          then n1 else n2);
                              PlayerLine (mkPlayer n1 StrategicClass);
                              PlayerLine (mkPlayer n2 StrategicClass);
                              AgainPrompt])
                         (S k))
                    ++ [ThanksLine];
           rolls := rolls c; rolled := rolled c |})
    /\ exists g',
         forall w,
           round (Z.to_nat (ceil_div g_goal mx) + spare) g_goal mn mx
                 (mkPlayer n1 StrategicClass, mkPlayer n2 StrategicClass) w
           = Ok (if Z.odd (ceil_div g_goal mx) then n1 else n2, g',
                 emit out w).
Proof.
  intros Ht Hg Hmn Hmx V L1 L2 Hstop.
  destruct (strategic_round_anywhere g_goal mn mx
              (mkPlayer n1 StrategicClass) (mkPlayer n2 StrategicClass)
              V eq_refl eq_refl) as (g' & out & Hround).
  assert (Hround' : forall w,
            round (Z.to_nat (ceil_div g_goal mx) + spare) g_goal mn mx
                  (mkPlayer n1 StrategicClass, mkPlayer n2 StrategicClass) w
            = Ok (if Z.odd (ceil_div g_goal mx) then n1 else n2, g',
                  emit out w)).
  { intros w. rewrite Hround. destruct (Z.odd (ceil_div g_goal mx));
      reflexivity. }
  exists out. split; [|exists g'; exact Hround'].
  unfold main.
  unfold cbind at 1. erewrite int_input_reads by eassumption.
  unfold cbind at 1. erewrite int_input_reads by (simpl; eauto).
  unfold cbind at 1. erewrite int_input_reads by (simpl; eauto).
  unfold cbind at 1. erewrite make_player_strategic by (simpl; eauto).
  unfold cbind at 1. erewrite make_player_strategic by (simpl; eauto).
  erewrite main_loop_replays by (simpl; eauto).
  simpl. rewrite <- !app_assoc. reflexivity.
Qed.

End Program.

Lemma main_replays_strategic_round_witness :
  exists out,
    main (fun s => option_map Z.of_int (NilZero.int_of_string s))
         (S 1 + 0) (Z.to_nat (ceil_div 7 3) + 0)
         (mkConsole ["7"; "3"; "3"; "amy"; "Strategic"; "bot"; "STRATEGIC";
                     "y"; "n"; "left"]%string [] (fun _ => 0) O)
    = Returns (tt,
        {| typed := ["left"%string];
           shown := []
                    ++ [GoalPrompt; MinPrompt; MaxPrompt;
                        NamePrompt "p1"; TypePrompt "p1";
                        NamePrompt "p2"; TypePrompt "p2"]
                    ++ List.concat (repeat
                         (map GameLine out
                          ++ [WinnerLine (if Z.odd (ceil_div 7 3)
                                          then "amy" else "bot")%string;
                              PlayerLine (mkPlayer "amy" StrategicClass);
                              PlayerLine (mkPlayer "bot" StrategicClass);
                              AgainPrompt])
                         (S 1))
                    ++ [ThanksLine];
           rolls := fun _ => 0; rolled := O |}).
Proof.
  assert (V : valid_config 7 3 3) by (unfold valid_config; lia).
  assert (N : "n"%string <> "y"%string) by discriminate.
  destruct (main_replays_strategic_round
              (fun s => option_map Z.of_int (NilZero.int_of_string s))
              "7" "3" "3" "amy" "Strategic" "bot" "STRATEGIC" 1 "n"
              ["left"%string] 7 3 3
              (mkConsole ["7"; "3"; "3"; "amy"; "Strategic"; "bot";
                          "STRATEGIC"; "y"; "n"; "left"]%string []
                         (fun _ => 0) O)
              O O eq_refl eq_refl eq_refl eq_refl V eq_refl eq_refl N)
    as (out & H & _).
  exists out. exact H.
Defined.

(** ** A configuration nobody can finish *)

Lemma legal_move_without_room p c mx mn g w amount w' :
  legal_class p = true ->
  mx <= 0 -> mx <= g - c ->
  call_move p c mn mx g w = Ok (amount, w') ->
  amount <= 0.
Proof.
  unfold legal_class, call_move. intros L Hmx Hrem.
  destruct (class p); try discriminate; intros H.
  - unfold RandomPlayer.move, randint in H.
    destruct (Z.ltb_spec mx mn); [discriminate|].
    injection H as <- _.
    pose proof (Z.mod_pos_bound (draws w (drawn w)) (mx - mn + 1) ltac:(lia)).
    lia.
  - apply move_loop_accepts in H. lia.
  - rewrite strategic_take_max in H by assumption.
    injection H as <- _. assumption.
Qed.

Lemma turns_without_room g w n g' w' :
  turns g w n g' w' ->
  legal_class (fst (players g)) = true ->
  legal_class (snd (players g)) = true ->
  max_step g <= 0 -> current g <= 0 -> 0 < goal g ->
  current g' <= 0.
Proof.
  intros H L0 L1 Hmx Hc Hg.
  induction H as [g w | g w n g1 w1 g' w' Hn IH Hlt Hstep]; [assumption|].
  specialize (IH L0 L1 Hmx Hc Hg).
  destruct (turns_frame _ _ _ _ _ Hn) as (Eg & _ & Emx & Ep & _).
  destruct (play_one_turn_amount _ _ _ _ Hstep)
    as (amount & w2 & Hmv & Hcur & _).
  assert (amount <= 0).
  { apply (legal_move_without_room (whose_turn g1 (turn g1)) (current g1)
             (max_step g1) (min_step g1) (goal g1) w1 amount w2);
      try assumption; try lia.
    destruct (whose_turn_cases g1 (turn g1)) as [E | E];
      rewrite E, Ep; assumption. }
  lia.
Qed.

(** X14. Nothing checks the configuration, and with [max_step <= 0] and a
    positive goal no round of random, user or strategic players can end:
    every move is at most 0, the count never leaves 0, and [play] never
    returns, whatever is typed or drawn. *)
Theorem round_without_room_never_returns fuel g_goal mn mx p0 p1 w :
  0 < g_goal -> mx <= 0 ->
  legal_class p0 = true -> legal_class p1 = true ->
  forall r, round fuel g_goal mn mx (p0, p1) w <> Ok r.
Proof.
  intros Hg Hmx L0 L1 [[winner g'] w'] H.
  destruct (round_turns _ _ _ _ _ _ _ _ _ H) as (Hge & _ & n & Hn).
  destruct (turns_frame _ _ _ _ _ Hn) as (Eg & _).
  pose proof (turns_without_room _ _ _ _ _ Hn L0 L1) as Hc.
  simpl in *. specialize (Hc Hmx ltac:(lia) Hg). lia.
Qed.

Lemma round_without_room_never_returns_witness :
  0 < 5 /\ 0 <= 0
  /\ round 9 5 0 0 (mkPlayer "a" RandomClass, mkPlayer "b" StrategicClass)
           (mkWorld [] [] (fun _ => 4) O)
     <> Ok ("a"%string,
            {| goal := 5; min_step := 0; max_step := 0; current := 5;
               players := (mkPlayer "a" RandomClass,
                           mkPlayer "b" StrategicClass);
               turn := 1 |},
            mkWorld [] [] (fun _ => 4) O).
Proof.
  assert (H1 : 0 < 5) by lia.
  assert (H2 : 0 <= 0) by lia.
  split; [exact H1|]. split; [exact H2|].
  exact (round_without_room_never_returns 9 5 0 0
           (mkPlayer "a" RandomClass) (mkPlayer "b" StrategicClass)
           (mkWorld [] [] (fun _ => 4) O) H1 H2 eq_refl eq_refl _).
Defined.

(** ** How the program ends *)

Section ProgramEnd.

Variable py_int : string -> option Z.

Lemma int_input_inv prompt c z c1 :
  int_input py_int prompt c = Returns (z, c1) ->
  exists line, typed c = line :: typed c1 /\ py_int line = Some z.
Proof.
  unfold int_input, cbind, input.
  destruct (typed c) as [|line rest]; [discriminate|].
  destruct (py_int line) as [z'|] eqn:E; [|discriminate].
  intros H. injection H as <- <-. exists line. split; [reflexivity | exact E].
Qed.

Lemma make_player_inv generic c p c1 :
  make_player generic c = Returns (p, c1) ->
  legal_class p = true
  /\ exists nm answer, typed c = nm :: answer :: typed c1.
Proof.
  unfold make_player, cbind, input.
  destruct (typed c) as [|nm [|answer rest]]; simpl; try discriminate.
  destruct (lower answer =? "random")%string;
    [|destruct (lower answer =? "user")%string;
      [|destruct (lower answer =? "strategic")%string]];
    simpl; intros H; try discriminate; injection H as <- <-;
    (split; [reflexivity | exists nm, answer; reflexivity]).
Qed.

Lemma in_game_inv {A} (m : M A) c a c1 :
  in_game py_int m c = Returns (a, c1) ->
  (exists w, m (to_world py_int c) = Ok (a, w))
  /\ exists read, typed c = read ++ typed c1.
Proof.
  unfold in_game.
  destruct (m (to_world py_int c)) as [[a' w]| |]; try discriminate.
  intros H. injection H as <- <-. split; [exists w; reflexivity|].
  exists (firstn (List.length (typed c) - List.length (stdin w)) (typed c)).
  simpl. now rewrite firstn_skipn.
Qed.

Lemma round_winner_is_a_player fuel g_goal mn mx p1 p2 w winner g' w' :
  round fuel g_goal mn mx (p1, p2) w = Ok (winner, g', w') ->
  winner = name p1 \/ winner = name p2.
Proof.
  intros H.
  destruct (round_turns _ _ _ _ _ _ _ _ _ H) as (_ & -> & n & Hn).
  destruct (turns_frame _ _ _ _ _ Hn) as (_ & _ & _ & Ep & _).
  destruct (whose_turn_cases g' (turn g' - 1)) as [-> | ->];
    rewrite Ep; simpl; auto.
Qed.

Lemma main_loop_returns rounds fuel g_goal mn mx p1 p2 : forall c c',
  main_loop py_int rounds fuel g_goal mn mx p1 p2 c = Returns (tt, c') ->
  exists winner before consumed again,
    (winner = name p1 \/ winner = name p2)
    /\ shown c' = before ++ [WinnerLine winner; PlayerLine p1; PlayerLine p2;
                             AgainPrompt; ThanksLine]
    /\ typed c = consumed ++ again :: typed c'
    /\ again <> "y"%string.
Proof.
  induction rounds as [|rounds IH]; intros c c' H; [discriminate|].
  cbn [main_loop] in H. unfold cbind at 1 in H.
  destruct (in_game py_int _ c) as [[[winner g1] c1]| |] eqn:E;
    try discriminate.
  destruct (in_game_inv _ _ _ _ E) as ((w1 & Hround) & read & Hread).
  unfold cbind, show, input in H. simpl in H.
  destruct (typed c1) as [|again rest] eqn:Et; [discriminate|].
  destruct (String.eqb_spec again "y") as [->|Hno]; simpl in H.
  - apply IH in H.
    destruct H as (winner' & before & consumed & again' & Hw & Hs & Ht & Hn).
    simpl in Ht.
    exists winner', before, (read ++ "y"%string :: consumed), again'.
    repeat split; try assumption.
    rewrite Hread, Ht, <- app_assoc. reflexivity.
  - injection H as <-. simpl.
    exists winner, (shown c1), read, again.
    repeat split; try assumption.
    + eapply round_winner_is_a_player; eassumption.
    + rewrite <- !app_assoc. reflexivity.
Qed.

(** X15. [main] only returns after at least one round has been played to
    its end and a line other than ["y"] has answered the question that
    follows it: the last things shown are the winner of that round, who is
    one of the two players, the two players, the question and the thanks.
    Both players are random, user or strategic players, and at least seven
    lines were read before that answer. *)
Theorem main_returns_after_refusal rounds fuel c c' :
  main py_int rounds fuel c = Returns (tt, c') ->
  exists p1 p2 winner before consumed again,
    legal_class p1 = true /\ legal_class p2 = true
    /\ (winner = name p1 \/ winner = name p2)
    /\ shown c' = before ++ [WinnerLine winner; PlayerLine p1; PlayerLine p2;
                             AgainPrompt; ThanksLine]
    /\ typed c = consumed ++ again :: typed c'
    /\ again <> "y"%string
    /\ (7 <= List.length consumed)%nat.
Proof.
  unfold main. intros H.
  unfold cbind at 1 in H.
  destruct (int_input py_int GoalPrompt c) as [[g_goal c1]| |] eqn:E1;
    try discriminate.
  unfold cbind at 1 in H.
  destruct (int_input py_int MinPrompt c1) as [[mn c2]| |] eqn:E2;
    try discriminate.
  unfold cbind at 1 in H.
  destruct (int_input py_int MaxPrompt c2) as [[mx c3]| |] eqn:E3;
    try discriminate.
  unfold cbind at 1 in H.
  destruct (make_player "p1" c3) as [[p1 c4]| |] eqn:E4; try discriminate.
  unfold cbind at 1 in H.
  destruct (make_player "p2" c4) as [[p2 c5]| |] eqn:E5; try discriminate.
  destruct (int_input_inv _ _ _ _ E1) as (l1 & T1 & _).
  destruct (int_input_inv _ _ _ _ E2) as (l2 & T2 & _).
  destruct (int_input_inv _ _ _ _ E3) as (l3 & T3 & _).
  destruct (make_player_inv _ _ _ _ E4) as (L1 & n1 & a1 & T4).
  destruct (make_player_inv _ _ _ _ E5) as (L2 & n2 & a2 & T5).
  destruct (main_loop_returns _ _ _ _ _ _ _ _ _ H)
    as (winner & before & consumed & again & Hw & Hs & Ht & Hn).
  exists p1, p2, winner, before,
    ([l1; l2; l3; n1; a1; n2; a2] ++ consumed), again.
  repeat split; try assumption.
  - rewrite T1, T2, T3, T4, T5, Ht. reflexivity.
  - rewrite length_app. simpl. lia.
Qed.

End ProgramEnd.

Lemma main_returns_after_refusal_witness :
  exists p1 p2 winner before,
    legal_class p1 = true /\ legal_class p2 = true
    /\ (winner = name p1 \/ winner = name p2)
    /\ [GoalPrompt; MinPrompt; MaxPrompt; NamePrompt "p1"; TypePrompt "p1";
        NamePrompt "p2"; TypePrompt "p2";
        GameLine (PromptLine 2 3); GameLine InvalidLine;
        GameLine (PromptLine 2 3); GameLine (MovesLine "amy" 2);
        GameLine (TotalLine 2); GameLine (MovesLine "bot" 3);
        GameLine (TotalLine 5); WinnerLine "bot";
        PlayerLine (mkPlayer "amy" UserClass);
        PlayerLine (mkPlayer "bot" RandomClass);
        AgainPrompt; ThanksLine]
       = before ++ [WinnerLine winner; PlayerLine p1; PlayerLine p2;
                    AgainPrompt; ThanksLine].
Proof.
  assert (E : main (fun s => option_map Z.of_int (NilZero.int_of_string s))
                   3 4
                   (mkConsole ["5"; "2"; "3"; "amy"; "user"; "bot"; "Random";
                               "7"; "2"; "Y"; "left"]%string []
                              (fun _ => 1) O)
              = Returns (tt,
                  mkConsole ["left"%string]
                    [GoalPrompt; MinPrompt; MaxPrompt;
                     NamePrompt "p1"; TypePrompt "p1";
                     NamePrompt "p2"; TypePrompt "p2";
                     GameLine (PromptLine 2 3); GameLine InvalidLine;
                     GameLine (PromptLine 2 3); GameLine (MovesLine "amy" 2);
                     GameLine (TotalLine 2); GameLine (MovesLine "bot" 3);
                     GameLine (TotalLine 5); WinnerLine "bot";
                     PlayerLine (mkPlayer "amy" UserClass);
                     PlayerLine (mkPlayer "bot" RandomClass);
                     AgainPrompt; ThanksLine]
                    (fun _ => 1) 1%nat)) by reflexivity.
  destruct (main_returns_after_refusal _ _ _ _ _ E)
    as (p1 & p2 & winner & before & _ & _ & L1 & L2 & Hw & Hs & _).
  exists p1, p2, winner, before. repeat split; assumption.
Defined.

(** ** A goal that is already reached *)

(** X16. With a goal that is not positive the loop of [play] is never
    entered: whatever the fuel, the players and the step bounds, the round
    prints nothing, leaves [current] and [turn] at 0 and names [players[1]]
    as the winner although nobody has moved, because [whose_turn (-1)]
    is [players[1]]. *)
Theorem round_on_reached_goal fuel g_goal mn mx p0 p1 w :
  g_goal <= 0 ->
  round fuel g_goal mn mx (p0, p1) w
  = Ok (name p1,
        {| goal := g_goal; min_step := mn; max_step := mx;
           current := 0; players := (p0, p1); turn := 0 |}, w).
Proof.
  intros H. rewrite round_eq. unfold play, bind, ret.
  rewrite play_loop_done by (simpl; lia). reflexivity.
Qed.

Lemma round_on_reached_goal_witness :
  0 <= 0
  /\ round 0 0 1 2 (mkPlayer "a" BaseClass, mkPlayer "b" UserClass)
           (mkWorld [] [] (fun _ => 0) O)
     = Ok ("b"%string,
           {| goal := 0; min_step := 1; max_step := 2; current := 0;
              players := (mkPlayer "a" BaseClass, mkPlayer "b" UserClass);
              turn := 0 |},
           mkWorld [] [] (fun _ => 0) O).
Proof.
  assert (H : 0 <= 0) by lia.
  split; [exact H|].
  exact (round_on_reached_goal 0 0 1 2 (mkPlayer "a" BaseClass)
           (mkPlayer "b" UserClass) (mkWorld [] [] (fun _ => 0) O) H).
Defined.
